(** * word_counter.py: hierarchical LaTeX word counting

    A shallow embedding of [src/word_counter.py] and the properties of its
    cleaner ([clean_latex]), its word count ([count_words]) and its
    sectional counter ([parse_and_count]).

    Python strings are sequences of code points: a string is a [list N].
    The regular expressions of the source are written as terms of a small
    regex type and run by a backtracking matcher with the priorities of
    Python's [re] (greedy before lazy alternatives, leftmost match first). *)

From Stdlib Require Import NArith String Ascii Lia.
From stdpp Require Import base option list.

Open Scope N_scope.
Open Scope nat_scope.

(** ** Strings *)

Definition pystr := list N.

Definition ch (a : ascii) : N := N_of_ascii a.

(** A literal of the source, character by character. *)
Definition str (s : string) : pystr := map ch (list_ascii_of_string s).

Definition newline : N := 10%N.

(** [str.isspace] on one code point (the table of CPython's
    [_PyUnicode_IsWhitespace]). *)
Definition is_space (c : N) : bool :=
  ((9 <=? c) && (c <=? 13) || (28 <=? c) && (c <=? 32) || (c =? 133)
   || (c =? 160) || (c =? 5760) || (8192 <=? c) && (c <=? 8202)
   || (c =? 8232) || (c =? 8233) || (c =? 8239) || (c =? 8287)
   || (c =? 12288))%N.

(** The line boundaries of [str.splitlines]. *)
Definition is_linebreak (c : N) : bool :=
  ((10 <=? c) && (c <=? 13) || (28 <=? c) && (c <=? 30) || (c =? 133)
   || (c =? 8232) || (c =? 8233))%N.

(** Prepend a character to the first piece of a list of pieces. *)
Definition cons_hd (c : N) (l : list pystr) : list pystr :=
  match l with
  | [] => [[c]]
  | x :: xs => (c :: x) :: xs
  end.

(** [text.split()]: the maximal runs of non-whitespace characters. *)
Fixpoint py_split (s : pystr) : list pystr :=
  match s with
  | [] => []
  | c :: s' =>
      if is_space c then py_split s'
      else match s' with
           | [] => [[c]]
           | d :: _ => if is_space d then [c] :: py_split s'
                       else cons_hd c (py_split s')
           end
  end.

(** [content.splitlines()]: a carriage return followed by a line feed is
    one boundary ([after_cr] tells that the previous character was a
    carriage return); a final boundary opens no further line. *)
Fixpoint splitlines_from (after_cr : bool) (s : pystr) : list pystr :=
  match s with
  | [] => []
  | c :: s' =>
      if after_cr && (c =? 10)%N then splitlines_from false s'
      else if is_linebreak c then [] :: splitlines_from (c =? 13)%N s'
      else cons_hd c (splitlines_from false s')
  end.

Definition py_splitlines (s : pystr) : list pystr := splitlines_from false s.

Fixpoint py_lstrip (s : pystr) : pystr :=
  match s with
  | [] => []
  | c :: s' => if is_space c then py_lstrip s' else s
  end.

Fixpoint py_rstrip (s : pystr) : pystr :=
  match s with
  | [] => []
  | c :: s' =>
      match py_rstrip s' with
      | [] => if is_space c then [] else [c]
      | r => c :: r
      end
  end.

(** [line.strip()] *)
Definition py_strip (s : pystr) : pystr := py_rstrip (py_lstrip s).

(** [sep.join(lines)] *)
Fixpoint py_join (sep : pystr) (ls : list pystr) : pystr :=
  match ls with
  | [] => []
  | [l] => l
  | l :: ls' => l ++ sep ++ py_join sep ls'
  end.

(** [pat in s] *)
Fixpoint is_prefix (p s : pystr) : bool :=
  match p, s with
  | [], _ => true
  | a :: p', b :: s' => (a =? b)%N && is_prefix p' s'
  | _ :: _, [] => false
  end.

Fixpoint contains (p s : pystr) : bool :=
  is_prefix p s || match s with
                   | [] => false
                   | _ :: s' => contains p s'
                   end.

(** ** Regular expressions

    The fragment of [re] syntax the source uses.  Repetition is only ever
    applied to a single character or character set, so the three
    repetition forms take the set as a predicate. *)

Inductive regex :=
| Eps
| Lit (c : N)                  (* one literal character *)
| Cls (p : N → bool)           (* one character of a set: [...] or . *)
| Cat (r1 r2 : regex)
| Opt (r : regex)              (* (?:r)?  or  c?   (greedy) *)
| Star (p : N → bool)          (* set*    (greedy) *)
| Plus (p : N → bool)          (* set+    (greedy) *)
| StarLazy (p : N → bool)      (* set*?   (lazy) *)
| Grp (i : nat) (r : regex).   (* the i-th capturing group *)

(** Captured groups, most recent first. *)
Definition caps := list (nat * pystr).

Definition group (i : nat) (cs : caps) : pystr :=
  match list_find (λ e, e.1 = i) cs with
  | Some (_, (_, t)) => t
  | None => []
  end.

Section Matcher.
Context {A : Type}.

(** Greedy repetition: take one more character when possible and fall
    back to stopping here when the rest of the pattern fails. *)
Fixpoint star_greedy (p : N → bool) (k : pystr → option A)
    (s : pystr) : option A :=
  match s with
  | c :: s' =>
      if p c then
        match star_greedy p k s' with
        | Some x => Some x
        | None => k s
        end
      else k s
  | [] => k []
  end.

(** Lazy repetition: stop here when the rest of the pattern succeeds,
    otherwise take one more character. *)
Fixpoint star_lazy (p : N → bool) (k : pystr → option A)
    (s : pystr) : option A :=
  match k s with
  | Some x => Some x
  | None =>
      match s with
      | c :: s' => if p c then star_lazy p k s' else None
      | [] => None
      end
  end.
End Matcher.

(** [match_re r s cs k]: match [r] at the start of [s], then run the rest
    of the pattern [k] on what is left; backtrack into [r] when [k]
    fails. *)
Fixpoint match_re (r : regex) (s : pystr) (cs : caps)
    (k : pystr → caps → option (pystr * caps)) : option (pystr * caps) :=
  match r with
  | Eps => k s cs
  | Lit c =>
      match s with
      | x :: s' => if (x =? c)%N then k s' cs else None
      | [] => None
      end
  | Cls p =>
      match s with
      | x :: s' => if p x then k s' cs else None
      | [] => None
      end
  | Cat r1 r2 => match_re r1 s cs (λ s' cs', match_re r2 s' cs' k)
  | Opt r1 =>
      match match_re r1 s cs k with
      | Some x => Some x
      | None => k s cs
      end
  | Star p => star_greedy p (λ s', k s' cs) s
  | Plus p =>
      match s with
      | x :: s' => if p x then star_greedy p (λ s', k s' cs) s' else None
      | [] => None
      end
  | StarLazy p => star_lazy p (λ s', k s' cs) s
  | Grp i r1 =>
      match_re r1 s cs
        (λ s' cs', k s' ((i, take (length s - length s') s) :: cs'))
  end.

(** A match at the start of [s]: what is left of [s] after the match, and
    the groups. *)
Definition re_match (r : regex) (s : pystr) : option (pystr * caps) :=
  match_re r s [] (λ s' cs, Some (s', cs)).

(** [re.search(r, s)]: the leftmost match. *)
Fixpoint re_search (r : regex) (s : pystr) : option (pystr * caps) :=
  match re_match r s with
  | Some m => Some m
  | None =>
      match s with
      | [] => None
      | _ :: s' => re_search r s'
      end
  end.

(** The number of characters a match at the start of [s] consumes. *)
Definition match_len (r : regex) (s : pystr) : option nat :=
  match re_match r s with
  | Some (rest, _) => Some (length s - length rest)
  | None => None
  end.

(** [re.sub(r, '', s)]: scan left to right, delete every match, resume
    after it.  [skip] counts the characters of the current match still to
    delete.  An empty match deletes nothing and the scan moves on by one
    character. *)
Fixpoint sub_from (r : regex) (skip : nat) (s : pystr) : pystr :=
  match s with
  | [] => []
  | c :: s' =>
      match skip with
      | S n => sub_from r n s'
      | O =>
          match match_len r s with
          | Some (S n) => sub_from r n s'
          | _ => c :: sub_from r 0 s'
          end
      end
  end.

Definition re_sub (r : regex) (s : pystr) : pystr := sub_from r 0 s.

(** [re.split(r, s)] for a pattern with [g] capturing groups: the text
    before each match, then the groups of the match, then the rest.  The
    patterns split on here consume at least one character. *)
Fixpoint split_from (r : regex) (g : nat) (skip : nat) (s : pystr)
    : list pystr :=
  match s with
  | [] => [[]]
  | c :: s' =>
      match skip with
      | S n => split_from r g n s'
      | O =>
          match re_match r s with
          | Some (rest, cs) =>
              match length s - length rest with
              | S n =>
                  [] :: map (λ i, group i cs) (seq 1 g)
                     ++ split_from r g n s'
              | O => cons_hd c (split_from r g 0 s')
              end
          | None => cons_hd c (split_from r g 0 s')
          end
      end
  end.

Definition re_split (r : regex) (g : nat) (s : pystr) : list pystr :=
  split_from r g 0 s.

(** Pattern text: a run of literal characters, and a sequence of parts. *)
Definition lits (l : pystr) : regex := foldr (λ c r, Cat (Lit c) r) Eps l.

Definition seq_re (l : list regex) : regex := foldr Cat Eps l.

(** ['(' + p + ')']: the new group is group 1 and the groups of [p] move
    up by one. *)
Fixpoint shift (r : regex) : regex :=
  match r with
  | Cat r1 r2 => Cat (shift r1) (shift r2)
  | Opt r1 => Opt (shift r1)
  | Grp i r1 => Grp (S i) (shift r1)
  | _ => r
  end.

Definition paren (r : regex) : regex := Grp 1 (shift r).

(** Character sets. *)
Definition any (c : N) : bool := true.                      (* [\s\S] *)
Definition dot (c : N) : bool := negb (c =? newline)%N.     (* . *)
Definition letter (c : N) : bool :=                         (* [a-zA-Z] *)
  ((97 <=? c) && (c <=? 122) || (65 <=? c) && (c <=? 90))%N.
Definition brace (c : N) : bool :=                          (* [\{\}] *)
  ((c =? ch "{") || (c =? ch "}"))%N.
Definition not_rbrace (c : N) : bool := negb (c =? ch "}")%N. (* [^}] *)
(** The set written [[^\]] in the source: it opens with a literal
    bracket, so the caret is an ordinary member and the set holds the
    three characters [ ^ ]. *)
Definition bracket_caret (c : N) : bool :=
  ((c =? ch "[") || (c =? ch "^") || (c =? ch "]"))%N.

(** ** The cleaner *)

(** [%.*] *)
Definition comment_re : regex := Cat (Lit (ch "%")) (Star dot).

(** [\\begin{env}[\s\S]*?\\end{env}], and the same for [env*]. *)
Definition env_re (env : pystr) (starred : bool) : regex :=
  let name := env ++ (if starred then str "*" else []) in
  seq_re [lits (str "\begin{" ++ name ++ str "}"); StarLazy any;
          lits (str "\end{" ++ name ++ str "}")].

(** [\$\$[\s\S]*?\$\$] *)
Definition display_dollar_re : regex :=
  seq_re [lits (str "$$"); StarLazy any; lits (str "$$")].

(** [\\\[[\s\S]*?\\\]] *)
Definition display_bracket_re : regex :=
  seq_re [lits (str "\["); StarLazy any; lits (str "\]")].

(** [\$.*?\$] *)
Definition inline_math_re : regex :=
  seq_re [Lit (ch "$"); StarLazy dot; Lit (ch "$")].

(** [\\[a-zA-Z]+(?:\\[[^\]]*?\])?(?:\{.*?\})?] *)
Definition command_args_re : regex :=
  seq_re [Lit (ch "\"); Plus letter;
          Opt (seq_re [Lit (ch "\"); StarLazy bracket_caret; Lit (ch "]")]);
          Opt (seq_re [Lit (ch "{"); StarLazy dot; Lit (ch "}")])].

(** [\\[a-zA-Z]+] *)
Definition command_re : regex := Cat (Lit (ch "\")) (Plus letter).

(** [[\{\}]] *)
Definition brace_re : regex := Cls brace.

Definition environments_to_remove : list pystr :=
  map str ["equation"; "figure"; "table"; "tabular"; "thebibliography";
           "verbatim"; "tikzpicture"]%string.

Definition remove_comments (content : pystr) : pystr :=
  re_sub comment_re content.

Definition remove_environments (content : pystr) : pystr :=
  foldl (λ content env,
           re_sub (env_re env true) (re_sub (env_re env false) content))
        content environments_to_remove.

Definition remove_math (content : pystr) : pystr :=
  re_sub inline_math_re
    (re_sub display_bracket_re (re_sub display_dollar_re content)).

Definition remove_commands (content : pystr) : pystr :=
  re_sub command_re (re_sub command_args_re content).

Definition remove_braces (content : pystr) : pystr :=
  re_sub brace_re content.

Definition strip_lines (content : pystr) : pystr :=
  py_join [newline] (map py_strip (py_splitlines content)).

(** The seven deleting steps of the cleaner. *)
Definition strip_markup (content : pystr) : pystr :=
  remove_braces
    (remove_commands
       (remove_math (remove_environments (remove_comments content)))).

Definition clean_latex (content : pystr) : pystr :=
  strip_lines (strip_markup content).

Definition count_words (text : pystr) : nat := length (py_split text).

(** ** The sectional counter *)

(** [\\section\*?{([^}]+)}] and [\\subsection\*?{([^}]+)}] *)
Definition header_re (name : string) : regex :=
  seq_re [lits (str name); Opt (Lit (ch "*")); Lit (ch "{");
          Grp 1 (Plus not_rbrace); Lit (ch "}")].

Definition section_pattern : regex := header_re "\section".
Definition subsection_pattern : regex := header_re "\subsection".

Record subsection_data := {
  sub_title : pystr;
  sub_word_count : nat
}.

Record section_data := {
  title : pystr;
  word_count : nat;
  subsections : list subsection_data
}.

(** The [results] dictionary; [preamble] is [None] for the empty
    dictionary and [Some n] for [{'word_count': n}]. *)
Record results := {
  total_words : nat;
  preamble : option nat;
  sections : list section_data
}.

(** What [parse_and_count] hands to its printer: the bare count in plain
    text mode, the result tree in LaTeX mode. *)
Inductive output :=
| PlainText (n : nat)
| Tree (r : results).

Definition is_latex (content : pystr) : bool :=
  contains (str "\section") content
  || contains (str "\subsection") content
  || contains (str "\documentclass") content.

(** [range(start, stop, step)] for a positive step; no more than [stop]
    indices are ever produced. *)
Fixpoint range_from (fuel i stop step : nat) : list nat :=
  match fuel with
  | O => []
  | S fuel' =>
      if decide (i < stop) then i :: range_from fuel' (i + step) stop step
      else []
  end.

Definition py_range (start stop step : nat) : list nat :=
  range_from stop start stop step.

(** A [for] loop whose body may fail: the body runs on each index in
    turn, and the first failure ends the run. *)
Fixpoint for_each {S : Type} (body : S → nat → option S) (st : S)
    (l : list nat) : option S :=
  match l with
  | [] => Some st
  | i :: l' => st' ← body st i; for_each body st' l'
  end.

(** The body of the inner loop.  List indexing is [!!]: an index out of
    range is [None], Python's IndexError. *)
Definition subsection_step (subs : list pystr) (sd : section_data)
    (j : nat) : option section_data :=
  sub_j ← subs !! j;
  match re_search subsection_pattern sub_j with
  | None => Some sd
  | Some (_, m) =>
      let subsection_title := group 1 m in
      subsection_content ← subs !! (j + 1);
      let subsection_cleaned := clean_latex subsection_content in
      let subsection_word_count := count_words subsection_cleaned in
      if 0 <? subsection_word_count then
        Some {| title := title sd;
                word_count := word_count sd + subsection_word_count;
                subsections :=
                  subsections sd
                  ++ [{| sub_title := subsection_title;
                         sub_word_count := subsection_word_count |}] |}
      else Some sd
  end.

(** The body of the outer loop. *)
Definition section_step (secs : list pystr) (res : results) (i : nat)
    : option results :=
  sec_i ← secs !! i;
  match re_search section_pattern sec_i with
  | None => Some res
  | Some (_, m) =>
      let section_title := group 1 m in
      section_content ← secs !! (i + 1);
      let subs := re_split (paren subsection_pattern) 2 section_content in
      section_intro_content ← subs !! 0;
      let section_intro_cleaned := clean_latex section_intro_content in
      let section_intro_word_count := count_words section_intro_cleaned in
      sd ←
        for_each (subsection_step subs)
          {| title := section_title;
             word_count := 0 + section_intro_word_count;
             subsections := [] |}
          (py_range 1 (length subs) 2);
      Some {| total_words := total_words res + word_count sd;
              preamble := preamble res;
              sections := sections res ++ [sd] |}
  end.

Definition parse_latex (content : pystr) : option results :=
  let secs := re_split (paren section_pattern) 2 content in
  preamble_content ← secs !! 0;
  let preamble_cleaned := clean_latex preamble_content in
  let preamble_word_count := count_words preamble_cleaned in
  let res :=
    if 0 <? preamble_word_count then
      {| total_words := 0 + preamble_word_count;
         preamble := Some preamble_word_count;
         sections := [] |}
    else {| total_words := 0; preamble := None; sections := [] |} in
  for_each (section_step secs) res (py_range 1 (length secs) 2).

(** [None] is a run that ends in an exception. *)
Definition parse_and_count (content : pystr) : option output :=
  if is_latex content then Tree <$> parse_latex content
  else Some (PlainText (count_words content)).

(** ** Vocabulary of the properties *)

(** Patterns whose every match consumes at least one character. *)
Fixpoint consumes (r : regex) : bool :=
  match r with
  | Lit _ | Cls _ | Plus _ => true
  | Cat r1 r2 => consumes r1 || consumes r2
  | Grp _ r1 => consumes r1
  | _ => false
  end.

(** A sound approximation of the characters a match can start with. *)
Fixpoint first (r : regex) (c : N) : bool :=
  match r with
  | Lit a => (c =? a)%N
  | Cls p | Plus p => p c
  | Cat r1 _ => if consumes r1 then first r1 c else true
  | Grp _ r1 => first r1 c
  | _ => true
  end.

(** The pattern without its group markers. *)
Fixpoint erase (r : regex) : regex :=
  match r with
  | Cat r1 r2 => Cat (erase r1) (erase r2)
  | Opt r1 => Opt (erase r1)
  | Grp _ r1 => erase r1
  | _ => r
  end.

(** The number of words that start in [s]; [inw] tells whether the
    character before [s] belongs to a word. *)
Fixpoint word_starts (inw : bool) (s : pystr) : nat :=
  match s with
  | [] => 0
  | c :: s' =>
      if is_space c then word_starts false s'
      else (if inw then 0 else 1) + word_starts true s'
  end.

(** A text with every line boundary turned into a line feed. *)
Definition unify_breaks (s : pystr) : pystr :=
  map (λ c, if is_linebreak c then newline else c) s.

(** The total is the preamble count plus the section counts. *)
Definition sum_law (res : results) : Prop :=
  total_words res
  = default 0 (preamble res) + sum_list_with word_count (sections res).

(** A section's count covers the counts of the subsections it keeps. *)
Definition covers_subsections (sd : section_data) : Prop :=
  sum_list_with sub_word_count (subsections sd) ≤ word_count sd.

(** [p] occurs in [s] as a substring. *)
Definition occurs_in (p s : pystr) : Prop := ∃ a b, s = a ++ p ++ b.

(** A sound approximation of the characters a match can contain. *)
Fixpoint accepts (r : regex) (c : N) : bool :=
  match r with
  | Eps => false
  | Lit a => (c =? a)%N
  | Cls p | Star p | Plus p | StarLazy p => p c
  | Cat r1 r2 => accepts r1 c || accepts r2 c
  | Opt r1 | Grp _ r1 => accepts r1 c
  end.

Definition is_newline (c : N) : bool := (c =? newline)%N.

(** Whether a dollar sign comes before the first boundary character of
    [s], for the boundaries [b]. *)
Fixpoint dollar_ahead (b : N → bool) (s : pystr) : bool :=
  match s with
  | [] => false
  | c :: s' =>
      if b c then false
      else if (c =? ch "$")%N then true
      else dollar_ahead b s'
  end.

(** No dollar sign is followed by another one before the next
    boundary. *)
Fixpoint lone_dollars (b : N → bool) (s : pystr) : Prop :=
  match s with
  | [] => True
  | c :: s' => (c = ch "$" → dollar_ahead b s' = false) ∧ lone_dollars b s'
  end.

(** [a] is [s] with some characters deleted, none of them a boundary. *)
Inductive deleted_within (b : N → bool) : pystr → pystr → Prop :=
| within_nil : deleted_within b [] []
| within_keep c a s :
    deleted_within b a s → deleted_within b (c :: a) (c :: s)
| within_drop c a s :
    b c = false → deleted_within b a s → deleted_within b a (c :: s).

(** The characters that the cleaner always removes. *)
Definition is_markup (c : N) : bool :=
  ((c =? ch "%") || (c =? ch "{") || (c =? ch "}"))%N.

(** The pattern [OPEN[\s\S]*?CLOSE] of environments and display math. *)
Definition delimited_re (opn cls : pystr) : regex :=
  seq_re [lits opn; StarLazy any; lits cls].

(** ** The entry point *)

(** What [main] does once the text is read (from the file or from
    standard input): a text that is empty after [strip()] is refused
    with "Error: No input received." and exit status 1, any other text
    goes to [parse_and_count]. *)
Inductive main_outcome :=
| NoInput
| Counted (out : option output).

Definition main_on (content : pystr) : main_outcome :=
  match py_strip content with
  | [] => NoInput
  | _ :: _ => Counted (parse_and_count content)
  end.

(** ** Headers read directly *)

(** The header pattern with its title as group [g], for the command
    text [nm]. *)
Definition header_body (g : nat) (nm : pystr) : regex :=
  seq_re [lits nm; Opt (Lit (ch "*")); Lit (ch "{");
          Grp g (Plus not_rbrace); Lit (ch "}")].

(** The text up to the first closing brace, and the text after that
    brace. *)
Fixpoint span_title (s : pystr) : option (pystr * pystr) :=
  match s with
  | [] => None
  | c :: s' =>
      if (c =? ch "}")%N then Some ([], s')
      else match span_title s' with
           | Some (t, r) => Some (c :: t, r)
           | None => None
           end
  end.

(** A header at the start of [s], read without a regular expression:
    the command text, an optional star, an opening brace, a non-empty
    title up to the first closing brace.  The result is the title and
    the text after the header. *)
Definition parse_header (nm s : pystr) : option (pystr * pystr) :=
  if is_prefix nm s then
    let s1 := drop (length nm) s in
    let s2 := match s1 with
              | c :: s1' => if (c =? ch "*")%N then s1' else s1
              | [] => []
              end in
    match s2 with
    | c :: s3 =>
        if (c =? ch "{")%N then
          match span_title s3 with
          | Some ((_ :: _) as t, r) => Some (t, r)
          | _ => None
          end
        else None
    | [] => None
    end
  else None.

(** What [re.split] returns for a text, stated on the text: the pieces
    are the stretches between successive leftmost matches, each match
    giving its groups. *)
Inductive splits (r : regex) (g : nat) : pystr → list pystr → Prop :=
| splits_last b :
    (∀ t, t `suffix_of` b → re_match r t = None) → splits r g b [b]
| splits_cons b m rest cs pieces :
    (∀ t, t `suffix_of` b → t ≠ [] → re_match r (t ++ m ++ rest) = None) →
    re_match r (m ++ rest) = Some (rest, cs) → m ≠ [] →
    splits r g rest pieces →
    splits r g (b ++ m ++ rest)
      (b :: map (λ i, group i cs) (seq 1 g) ++ pieces).

(** The text a list of split pieces came from, for a pattern with two
    groups of which the first is the whole match. *)
Fixpoint rejoin (pieces : list pystr) : pystr :=
  match pieces with
  | b :: h :: _ :: rest => b ++ h ++ rejoin rest
  | [b] => b
  | _ => []
  end.

(** * Properties *)

(** Closes [x ∉ l] for a list given by its elements. *)
Ltac not_in_list :=
  let H := fresh in
  intros H;
  repeat (apply elem_of_cons in H as [H|H]; [discriminate H|]);
  by apply elem_of_nil in H.


(** ** The matcher *)

Section MatcherFacts.
Context {A : Type}.
Implicit Types (p : N → bool) (k : pystr → option A).

Lemma star_greedy_inv p k s x :
  star_greedy p k s = Some x → ∃ s', s' `suffix_of` s ∧ k s' = Some x.
Proof.
  induction s as [|c s IH]; simpl; intros H.
  - by exists [].
  - destruct (p c); [destruct (star_greedy p k s) eqn:E|].
    + destruct IH as (s' & Hs & Hk); [by simplify_eq|].
      exists s'. split; [by apply suffix_cons_r|done].
    + by exists (c :: s).
    + by exists (c :: s).
Qed.

Lemma star_lazy_inv p k s x :
  star_lazy p k s = Some x → ∃ s', s' `suffix_of` s ∧ k s' = Some x.
Proof.
  induction s as [|c s IH]; simpl; intros H.
  - destruct (k []) eqn:E; [|done]. simplify_eq. by exists [].
  - destruct (k (c :: s)) eqn:E.
    + exists (c :: s). by simplify_eq.
    + destruct (p c); [|done].
      destruct (IH H) as (s' & Hs & Hk).
      exists s'. split; [by apply suffix_cons_r|done].
Qed.

Lemma star_greedy_none p k k' s :
  (∀ t, k t = None ↔ k' t = None) →
  star_greedy p k s = None ↔ star_greedy p k' s = None.
Proof.
  intros Hk. induction s as [|c s IH]; simpl; [apply Hk|].
  destruct (p c); [|apply Hk]. specialize (Hk (c :: s)).
  destruct (star_greedy p k s), (star_greedy p k' s);
    intuition congruence.
Qed.

Lemma star_lazy_none p k k' s :
  (∀ t, k t = None ↔ k' t = None) →
  star_lazy p k s = None ↔ star_lazy p k' s = None.
Proof.
  intros Hk. induction s as [|c s IH]; simpl.
  - specialize (Hk []). destruct (k []), (k' []); intuition congruence.
  - specialize (Hk (c :: s)).
    destruct (k (c :: s)), (k' (c :: s)); try intuition congruence.
    by destruct (p c).
Qed.
End MatcherFacts.

(** A match leaves a suffix of its input, a proper one when the pattern
    consumes. *)
Lemma match_re_inv r s cs k x :
  match_re r s cs k = Some x →
  ∃ s' cs', s' `suffix_of` s
            ∧ (consumes r = true → length s' < length s)
            ∧ k s' cs' = Some x.
Proof.
  revert s cs k x.
  induction r as [|c|p|r1 IH1 r2 IH2|r1 IH1|p|p|p|i r1 IH1];
    intros s cs k x; simpl; intros H.
  - exists s, cs. split_and!; [done|done|done].
  - destruct s as [|a s]; [done|]. destruct (a =? c)%N; [|done].
    exists s, cs. split_and!; [by apply suffix_cons_r|simpl; lia|done].
  - destruct s as [|a s]; [done|]. destruct (p a); [|done].
    exists s, cs. split_and!; [by apply suffix_cons_r|simpl; lia|done].
  - apply IH1 in H as (s1 & cs1 & Hs1 & Hc1 & H).
    apply IH2 in H as (s2 & cs2 & Hs2 & Hc2 & H).
    exists s2, cs2. split_and!; [by etrans|..|done].
    intros [?|?]%orb_true_iff.
    + apply suffix_length in Hs2. specialize (Hc1 ltac:(done)). lia.
    + apply suffix_length in Hs1. specialize (Hc2 ltac:(done)). lia.
  - destruct (match_re r1 s cs k) eqn:E.
    + simplify_eq. apply IH1 in E as (s1 & cs1 & Hs1 & _ & E).
      exists s1, cs1. split_and!; [done|done|done].
    + exists s, cs. split_and!; [done|done|done].
  - apply star_greedy_inv in H as (s' & Hs & H).
    exists s', cs. split_and!; [done|done|done].
  - destruct s as [|a s]; [done|]. destruct (p a); [|done].
    apply star_greedy_inv in H as (s' & Hs & H).
    exists s', cs. split_and!; [by apply suffix_cons_r| |done].
    intros _. apply suffix_length in Hs. simpl. lia.
  - apply star_lazy_inv in H as (s' & Hs & H).
    exists s', cs. split_and!; [done|done|done].
  - apply IH1 in H as (s1 & cs1 & Hs1 & Hc1 & H). by eexists _, _.
Qed.

Lemma re_match_shorter r s rest cs :
  consumes r = true → re_match r s = Some (rest, cs) →
  length rest < length s.
Proof.
  intros Hr (s' & cs' & _ & Hlen & ?)%match_re_inv. simplify_eq. auto.
Qed.

(** No match starts with a character outside [first]. *)
Lemma match_re_first r c s cs k :
  first r c = false → match_re r (c :: s) cs k = None.
Proof.
  revert cs k.
  induction r as [|a|p|r1 IH1 r2 IH2|r1 IH1|p|p|p|i r1 IH1];
    intros cs k; simpl; try done.
  - by intros ->.
  - by intros ->.
  - destruct (consumes r1); [|done]. intros ?. by apply IH1.
  - by intros ->.
  - intros ?. by apply IH1.
Qed.

(** Whether a pattern matches does not depend on its group markers. *)
Lemma match_re_erase r s cs cs' k k' :
  (∀ t c c', k t c = None ↔ k' t c' = None) →
  match_re r s cs k = None ↔ match_re (erase r) s cs' k' = None.
Proof.
  revert s cs cs' k k'.
  induction r as [|a|p|r1 IH1 r2 IH2|r1 IH1|p|p|p|i r1 IH1];
    intros s cs cs' k k' Hk; simpl.
  - apply Hk.
  - destruct s as [|x s]; [done|]. destruct (x =? a)%N; [apply Hk|done].
  - destruct s as [|x s]; [done|]. destruct (p x); [apply Hk|done].
  - apply IH1. intros t c c'. by apply IH2.
  - specialize (IH1 s cs cs' k k' Hk). specialize (Hk s cs cs').
    destruct (match_re r1 s cs k), (match_re (erase r1) s cs' k');
      intuition congruence.
  - apply star_greedy_none. intros t. apply Hk.
  - destruct s as [|x s]; [done|]. destruct (p x); [|done].
    apply star_greedy_none. intros t. apply Hk.
  - apply star_lazy_none. intros t. apply Hk.
  - apply IH1. intros t c c'. apply Hk.
Qed.

Lemma re_match_erase r1 r2 s :
  erase r1 = erase r2 → re_match r1 s = None → re_match r2 s = None.
Proof.
  unfold re_match. intros He H1.
  eapply (match_re_erase r2 s [] [] _ (λ s' cs, Some (s', cs))); [done|].
  rewrite <- He.
  by eapply (match_re_erase r1 s [] [] (λ s' cs, Some (s', cs))).
Qed.

Lemma re_search_erase r1 r2 s :
  erase r1 = erase r2 → re_search r1 s = None → re_search r2 s = None.
Proof.
  intros He. induction s as [|c s IH]; simpl.
  - destruct (re_match r1 []) eqn:E; [done|]. intros _.
    by rewrite (re_match_erase r1 r2 [] He E).
  - destruct (re_match r1 (c :: s)) eqn:E; [done|]. intros H.
    rewrite (re_match_erase r1 r2 _ He E). by apply IH.
Qed.

(** ** Substitution and splitting *)

Lemma re_match_nil r : consumes r = true → re_match r [] = None.
Proof.
  intros Hr. destruct (re_match r []) as [[rest cs]|] eqn:E; [|done].
  apply re_match_shorter in E; [simpl in E; lia|done].
Qed.

Lemma match_len_first r c s : first r c = false → match_len r (c :: s) = None.
Proof.
  intros H. unfold match_len, re_match. by rewrite match_re_first.
Qed.

(** [re.sub] with an empty replacement only deletes characters. *)
Lemma sub_from_sublist r skip s : sub_from r skip s `sublist_of` s.
Proof.
  revert skip. induction s as [|c s IH]; intros skip; simpl; [done|].
  destruct skip as [|n]; [|by apply sublist_cons].
  destruct (match_len r (c :: s)) as [[|n]|];
    (by apply sublist_skip) || by apply sublist_cons.
Qed.

Lemma re_sub_sublist r s : re_sub r s `sublist_of` s.
Proof. apply sub_from_sublist. Qed.

(** A text none of whose characters can start a match is left alone. *)
Lemma re_sub_id r s : Forall (λ c, first r c = false) s → re_sub r s = s.
Proof.
  unfold re_sub. induction 1 as [|c s Hc _ IH]; simpl; [done|].
  by rewrite match_len_first, IH.
Qed.

(** The scan copies a stretch that cannot start a match, and deletes the
    rest of a match in progress. *)
Lemma sub_from_app_copy r pre s :
  Forall (λ c, first r c = false) pre →
  sub_from r 0 (pre ++ s) = pre ++ sub_from r 0 s.
Proof.
  induction 1 as [|c pre Hc _ IH]; simpl; [done|].
  by rewrite match_len_first, IH.
Qed.

Lemma sub_from_app_skip r del s :
  sub_from r (length del) (del ++ s) = sub_from r 0 s.
Proof. induction del as [|c del IH]; simpl; [done|apply IH]. Qed.

(** [re.split] yields at least one piece, and its last piece holds no
    match. *)
Lemma split_from_last r g s skip :
  consumes r = true →
  ∃ init piece,
    split_from r g skip s = init ++ [piece]
    ∧ re_search r piece = None
    ∧ (init = [] → piece = drop skip s).
Proof.
  intros Hr. revert skip. induction s as [|c s IH]; intros skip.
  - exists [], []. simpl. rewrite re_match_nil by done.
    by rewrite drop_nil.
  - destruct skip as [|n]; simpl.
    + destruct (re_match r (c :: s)) as [[rest cs]|] eqn:E.
      * pose proof (re_match_shorter _ _ _ _ Hr E) as Hlen.
        simpl in Hlen.
        destruct (S (length s) - length rest) as [|n] eqn:En; [lia|].
        destruct (IH n) as (init & piece & -> & Hp & _).
        exists ([] :: map (λ i, group i cs) (seq 1 g) ++ init), piece.
        split_and!; [|done|done].
        by rewrite <- app_comm_cons, <- app_assoc.
      * destruct (IH 0) as (init & piece & -> & Hp & Hi).
        destruct init as [|x init]; simpl.
        -- rewrite Hi by done. exists [], (c :: s).
           split_and!; [done| |done].
           simpl. rewrite E. rewrite Hi in Hp by done. exact Hp.
        -- exists ((c :: x) :: init), piece. done.
    + destruct (IH n) as (init & piece & -> & Hp & Hi).
      exists init, piece. done.
Qed.

Lemma re_split_nonempty r g s :
  consumes r = true → is_Some (re_split r g s !! 0).
Proof.
  intros Hr. destruct (split_from_last r g s 0 Hr) as (init & piece & E & _).
  unfold re_split. rewrite E. destruct init; simpl; eauto.
Qed.

(** After an element of the split list that holds a match there is
    always a further element. *)
Lemma re_split_lookup_succ r r' g s i x m :
  consumes r = true → erase r = erase r' →
  re_split r g s !! i = Some x → re_search r' x = Some m →
  is_Some (re_split r g s !! (i + 1)).
Proof.
  intros Hr He Hi Hm.
  destruct (split_from_last r g s 0 Hr) as (init & piece & E & Hp & _).
  unfold re_split in *. rewrite E in *.
  apply lookup_lt_is_Some. rewrite length_app. simpl.
  destruct (decide (i < length init)) as [|Hge]; [lia|].
  apply lookup_lt_Some in Hi as Hlt. rewrite length_app in Hlt.
  simpl in Hlt. assert (i = length init) as -> by lia.
  rewrite lookup_app_r, Nat.sub_diag in Hi by lia. simpl in Hi.
  simplify_eq. by rewrite (re_search_erase r r' x He Hp) in Hm.
Qed.

(** ** The loops *)

Lemma range_from_lt fuel i stop step j :
  j ∈ range_from fuel i stop step → j < stop.
Proof.
  revert i. induction fuel as [|fuel IH]; intros i; simpl.
  - by intros ?%elem_of_nil.
  - destruct (decide (i < stop)); [|by intros ?%elem_of_nil].
    intros [->|?]%elem_of_cons; [done|by eapply IH].
Qed.

Lemma py_range_lt start stop step j : j ∈ py_range start stop step → j < stop.
Proof. apply range_from_lt. Qed.

Lemma for_each_is_Some {S} (body : S → nat → option S) st l :
  (∀ st' i, i ∈ l → is_Some (body st' i)) → is_Some (for_each body st l).
Proof.
  revert st. induction l as [|i l IH]; intros st Hb; simpl; [eauto|].
  destruct (Hb st i) as [st' ->]; [by left|]. simpl.
  apply IH. intros ???. apply Hb. by right.
Qed.

(** An invariant of the loop state holds after the loop. *)
Lemma for_each_invariant {S} (P : S → Prop) (body : S → nat → option S)
    st st' l :
  (∀ a b i, P a → body a i = Some b → P b) →
  P st → for_each body st l = Some st' → P st'.
Proof.
  intros Hb. revert st. induction l as [|i l IH]; intros st HP; simpl.
  - by intros [= <-].
  - destruct (body st i) as [st1|] eqn:E; [|done]. simpl. eauto.
Qed.

Lemma header_consumes name : consumes (paren (header_re name)) = true.
Proof. destruct name as [|a name]; [done|]. done. Qed.

(** ** The sectional counter never faults *)

#[local] Opaque section_pattern subsection_pattern paren clean_latex
  count_words re_search re_split py_range.

Lemma subsection_step_is_Some text sd j :
  let subs := re_split (paren subsection_pattern) 2 text in
  j ∈ py_range 1 (length subs) 2 → is_Some (subsection_step subs sd j).
Proof.
  intros subs Hj. apply py_range_lt, lookup_lt_is_Some in Hj as [x Hx].
  unfold subsection_step. rewrite Hx. simpl.
  destruct (re_search subsection_pattern x) as [[rest m]|] eqn:Hm; [|eauto].
  destruct (re_split_lookup_succ (paren subsection_pattern)
              subsection_pattern 2 text j x (rest, m)) as [y Hy];
    [apply header_consumes|done|done|done|].
  fold subs in Hy. rewrite Hy. simpl.
  destruct (0 <? count_words (clean_latex y)); eauto.
Qed.

Lemma section_step_is_Some content res i :
  let secs := re_split (paren section_pattern) 2 content in
  i ∈ py_range 1 (length secs) 2 → is_Some (section_step secs res i).
Proof.
  intros secs Hi. apply py_range_lt, lookup_lt_is_Some in Hi as [x Hx].
  unfold section_step. rewrite Hx. simpl.
  destruct (re_search section_pattern x) as [[rest m]|] eqn:Hm; [|eauto].
  destruct (re_split_lookup_succ (paren section_pattern)
              section_pattern 2 content i x (rest, m)) as [y Hy];
    [apply header_consumes|done|done|done|].
  fold secs in Hy. rewrite Hy. simpl.
  destruct (re_split_nonempty (paren subsection_pattern) 2 y) as [z Hz];
    [apply header_consumes|].
  rewrite Hz. simpl.
  edestruct (for_each_is_Some
               (subsection_step (re_split (paren subsection_pattern) 2 y)))
    as [sd ->]; [|simpl; eauto].
  intros st' j Hj. by apply subsection_step_is_Some.
Qed.

Lemma parse_latex_is_Some content : is_Some (parse_latex content).
Proof.
  unfold parse_latex.
  destruct (re_split_nonempty (paren section_pattern) 2 content) as [z Hz];
    [apply header_consumes|].
  rewrite Hz. simpl. apply for_each_is_Some.
  intros st' i Hi. by apply section_step_is_Some.
Qed.

(** ** The sum law *)

Lemma subsection_step_covers subs a b j :
  covers_subsections a → subsection_step subs a j = Some b →
  covers_subsections b.
Proof.
  unfold subsection_step, covers_subsections. intros Ha H.
  destruct (subs !! j) as [x|]; [simpl in H|done].
  destruct (re_search subsection_pattern x) as [[rest m]|];
    [|by simplify_eq].
  destruct (subs !! (j + 1)) as [y|]; [simpl in H|done].
  destruct (0 <? count_words (clean_latex y)); simplify_eq; [|done].
  simpl. rewrite sum_list_with_app. simpl. lia.
Qed.

Lemma section_step_sum_law secs a b i :
  sum_law a ∧ Forall covers_subsections (sections a) →
  section_step secs a i = Some b →
  sum_law b ∧ Forall covers_subsections (sections b).
Proof.
  unfold section_step, sum_law. intros [Ha Hc] H.
  destruct (secs !! i) as [x|]; [simpl in H|done].
  destruct (re_search section_pattern x) as [[rest m]|];
    [|by simplify_eq].
  destruct (secs !! (i + 1)) as [y|]; [simpl in H|done].
  destruct (re_split (paren subsection_pattern) 2 y !! 0) as [z|];
    [simpl in H|done].
  destruct (for_each _ _ _) as [sd|] eqn:Hsd; [simpl in H|done].
  simplify_eq. simpl. split.
  - rewrite sum_list_with_app, Ha. simpl. lia.
  - apply Forall_app. split; [done|]. apply Forall_singleton.
    eapply (for_each_invariant covers_subsections); [|
      |exact Hsd].
    + intros ???. apply subsection_step_covers.
    + unfold covers_subsections. simpl. lia.
Qed.

Lemma parse_latex_sum_law content res :
  parse_latex content = Some res →
  sum_law res ∧ Forall covers_subsections (sections res).
Proof.
  unfold parse_latex. intros H.
  destruct (re_split (paren section_pattern) 2 content !! 0) as [z|];
    [simpl in H|done].
  eapply (for_each_invariant
            (λ r, sum_law r ∧ Forall covers_subsections (sections r)));
    [| |exact H].
  - intros ???. apply section_step_sum_law.
  - unfold sum_law.
    destruct (0 <? count_words (clean_latex z)); simpl; split; done || lia.
Qed.

#[local] Transparent section_pattern subsection_pattern paren clean_latex
  count_words re_search re_split py_range.

(** ** Counting words *)

Lemma length_cons_hd c l : l ≠ [] → length (cons_hd c l) = length l.
Proof. by destruct l. Qed.

Lemma count_words_starts s : count_words s = word_starts false s.
Proof.
  unfold count_words. induction s as [|c s IH]; simpl; [done|].
  destruct (is_space c) eqn:Hc; [done|].
  destruct s as [|d s]; [done|].
  simpl in IH |- *. destruct (is_space d) eqn:Hd.
  - simpl. by rewrite IH.
  - rewrite length_cons_hd; [lia|].
    intros E. rewrite E in IH. simpl in IH. lia.
Qed.

Lemma word_starts_bounds s :
  word_starts true s ≤ word_starts false s ≤ S (word_starts true s).
Proof. destruct s as [|c s]; simpl; [lia|]. destruct (is_space c); lia. Qed.

(** Deleting characters never makes more words. *)
Lemma word_starts_sublist l1 l2 w :
  l1 `sublist_of` l2 → word_starts w l1 ≤ word_starts w l2.
Proof.
  intros H. revert w. induction H as [|c l1 l2 _ IH|c l1 l2 _ IH];
    intros w; simpl; [done|..].
  - destruct (is_space c); [apply IH|]. specialize (IH true). lia.
  - pose proof (word_starts_bounds l1).
    destruct (is_space c).
    + specialize (IH false). destruct w; lia.
    + specialize (IH true). destruct w; lia.
Qed.

Lemma count_words_sublist l1 l2 :
  l1 `sublist_of` l2 → count_words l1 ≤ count_words l2.
Proof. rewrite !count_words_starts. apply word_starts_sublist. Qed.

(** Every line boundary is whitespace. *)
Lemma is_linebreak_space c : is_linebreak c = true → is_space c = true.
Proof.
  unfold is_linebreak, is_space.
  rewrite !orb_true_iff, !andb_true_iff, !N.leb_le, !N.eqb_eq. lia.
Qed.

Lemma word_starts_unify_breaks w s :
  word_starts w (unify_breaks s) = word_starts w s.
Proof.
  revert w. induction s as [|c s IH]; intros w; simpl; [done|].
  destruct (is_linebreak c) eqn:Hc.
  - apply is_linebreak_space in Hc. rewrite Hc. simpl. apply IH.
  - rewrite !IH. done.
Qed.

Lemma py_lstrip_sublist s : py_lstrip s `sublist_of` s.
Proof.
  induction s as [|c s IH]; simpl; [done|].
  destruct (is_space c); [by apply sublist_cons|done].
Qed.

Lemma py_rstrip_sublist s : py_rstrip s `sublist_of` s.
Proof.
  induction s as [|c s IH]; simpl; [done|].
  destruct (py_rstrip s) as [|d r].
  - destruct (is_space c); [apply sublist_nil_l|].
    apply sublist_skip, sublist_nil_l.
  - by apply sublist_skip.
Qed.

Lemma py_strip_sublist s : py_strip s `sublist_of` s.
Proof.
  unfold py_strip. etrans; [apply py_rstrip_sublist|apply py_lstrip_sublist].
Qed.

Lemma py_join_sublist sep (f : pystr → pystr) ls :
  (∀ l, f l `sublist_of` l) →
  py_join sep (map f ls) `sublist_of` py_join sep ls.
Proof.
  intros Hf. induction ls as [|l ls IH]; simpl; [done|].
  destruct ls as [|l' ls]; simpl in *; [apply Hf|].
  apply sublist_app; [apply Hf|]. by apply sublist_app.
Qed.

Lemma py_join_cons_hd sep c ls :
  py_join sep (cons_hd c ls) = c :: py_join sep ls.
Proof. destruct ls as [|l [|l' ls]]; done. Qed.

Lemma py_join_nil_cons sep ls :
  py_join sep ([] :: ls) `sublist_of` sep ++ py_join sep ls.
Proof. destruct ls; simpl; [apply sublist_nil_l|done]. Qed.

Lemma splitlines_from_sublist after_cr s :
  py_join [newline] (splitlines_from after_cr s) `sublist_of` unify_breaks s.
Proof.
  revert after_cr. induction s as [|c s IH]; intros after_cr; simpl; [done|].
  destruct (after_cr && (c =? 10)%N); [by apply sublist_cons|].
  destruct (is_linebreak c) eqn:Hc.
  - etrans; [apply py_join_nil_cons|]. simpl. by apply sublist_skip.
  - rewrite py_join_cons_hd. by apply sublist_skip.
Qed.

Lemma strip_lines_sublist s : strip_lines s `sublist_of` unify_breaks s.
Proof.
  unfold strip_lines.
  etrans; [apply py_join_sublist, py_strip_sublist|].
  apply splitlines_from_sublist.
Qed.

Lemma count_words_strip_lines s : count_words (strip_lines s) ≤ count_words s.
Proof.
  rewrite !count_words_starts, <- (word_starts_unify_breaks false s).
  apply word_starts_sublist, strip_lines_sublist.
Qed.

Lemma remove_environments_sublist s : remove_environments s `sublist_of` s.
Proof.
  unfold remove_environments. revert s.
  induction environments_to_remove as [|env l IH]; intros s; simpl; [done|].
  etrans; [apply IH|]. etrans; apply re_sub_sublist.
Qed.

Lemma strip_markup_sublist s : strip_markup s `sublist_of` s.
Proof.
  unfold strip_markup, remove_braces, remove_commands, remove_math,
    remove_comments.
  do 6 (etrans; [apply re_sub_sublist|]).
  etrans; [apply remove_environments_sublist|]. apply re_sub_sublist.
Qed.

(** ** Substring tests *)

Lemma is_prefix_spec p s : is_prefix p s = true ↔ ∃ b, s = p ++ b.
Proof.
  revert s. induction p as [|a p IH]; intros s; simpl.
  - split; [by exists s|done].
  - destruct s as [|b s].
    + split; [done|by intros [? ?]].
    + rewrite andb_true_iff, N.eqb_eq, IH. split.
      * intros [-> [t ->]]. by exists t.
      * intros [t [= -> ->]]. eauto.
Qed.

Lemma contains_spec p s : contains p s = true ↔ occurs_in p s.
Proof.
  unfold occurs_in. induction s as [|c s IH]; simpl.
  - rewrite orb_false_r, is_prefix_spec. split.
    + intros [b ->]. by exists [], b.
    + intros ([|??] & b & E); [by exists b|done].
  - rewrite orb_true_iff, is_prefix_spec, IH. split.
    + intros [[b ->]|(a & b & ->)]; [by exists [], b|by exists (c :: a), b].
    + intros ([|x a] & b & E); [left; by exists b|].
      right. exists a, b. by simplify_eq/=.
Qed.

Lemma contains_false p s : ¬ occurs_in p s → contains p s = false.
Proof. rewrite <- contains_spec. by destruct (contains p s). Qed.

(** ** Comments *)

(** A greedy repetition runs to the end of the stretch it accepts when
    the rest of the pattern succeeds there. *)
Lemma star_greedy_run {A} p (k : pystr → option A) run rest x :
  Forall (λ c, p c = true) run →
  (rest = [] ∨ ∃ c r, rest = c :: r ∧ p c = false) →
  k rest = Some x → star_greedy p k (run ++ rest) = Some x.
Proof.
  intros Hrun Hrest Hk. induction Hrun as [|c run Hc _ IH]; simpl.
  - destruct Hrest as [->|(c & r & -> & Hc)]; simpl; [done|by rewrite Hc].
  - by rewrite Hc, IH.
Qed.

Lemma match_len_comment com rest :
  newline ∉ com → (rest = [] ∨ ∃ r, rest = newline :: r) →
  match_len comment_re (ch "%" :: com ++ rest) = Some (S (length com)).
Proof.
  intros Hcom Hrest. unfold match_len, re_match. simpl.
  erewrite star_greedy_run; [| | |done].
  - f_equal. rewrite length_app. lia.
  - apply Forall_forall. intros c Hc. unfold dot.
    apply negb_true_iff, N.eqb_neq. by intros ->.
  - destruct Hrest as [->|[r ->]]; [by left|right]. by exists newline, r.
Qed.

(** ** Tokens *)

Lemma cons_hd_tokens (P : pystr → Prop) c l :
  (∀ t, P t → P (c :: t)) → P [c] → Forall P l → Forall P (cons_hd c l).
Proof.
  intros Hc H1 [|t l' Ht Hl]; simpl; [by apply Forall_singleton|].
  apply Forall_cons. eauto.
Qed.

Lemma concat_cons_hd c l : l ≠ [] → concat (cons_hd c l) = c :: concat l.
Proof. by destruct l. Qed.

Lemma py_split_nonempty c s : is_space c = false → py_split (c :: s) ≠ [].
Proof.
  intros Hc. simpl. rewrite Hc. destruct s as [|d s]; [done|].
  destruct (is_space d); [done|]. by destruct (py_split (d :: s)).
Qed.

(** The tokens of [text.split()] are non-empty and free of whitespace,
    and together they are the non-whitespace characters of the text. *)
Lemma py_split_tokens (s : list N) :
  Forall (λ t, t ≠ [] ∧ Forall (λ c, is_space c = false) t) (py_split s)
  ∧ concat (py_split s) = filter (λ c, is_space c = false) s.
Proof.
  induction s as [|c s [IH1 IH2]]; [done|].
  cbn [py_split]. destruct (is_space c) eqn:Hc.
  { rewrite filter_cons_False by (by rewrite Hc). done. }
  rewrite filter_cons_True by done.
  destruct s as [|d s]; [by repeat constructor|].
  destruct (is_space d) eqn:Hd.
  - split; [|simpl; by rewrite <- IH2].
    apply Forall_cons. split; [|done]. split; [done|by repeat constructor].
  - split.
    + apply cons_hd_tokens; [|by repeat constructor|done].
      intros t [? ?]. split; [done|by constructor].
    + rewrite concat_cons_hd by by apply py_split_nonempty.
      by rewrite IH2.
Qed.


(** ** Lines *)

Lemma Forall_of_sublist {A} (P : A → Prop) (l1 l2 : list A) :
  l1 `sublist_of` l2 → Forall P l2 → Forall P l1.
Proof.
  rewrite !Forall_forall. intros Hs H x Hx.
  eapply H, elem_of_sublist; done.
Qed.

Lemma cons_hd_no_breaks c ls :
  is_linebreak c = false →
  Forall (Forall (λ x, is_linebreak x = false)) ls →
  Forall (Forall (λ x, is_linebreak x = false)) (cons_hd c ls).
Proof.
  intros Hc [|l ls' Hl Hls]; simpl; repeat constructor; done.
Qed.

(** No line of [splitlines] holds a line boundary. *)
Lemma splitlines_from_no_breaks after_cr s :
  Forall (Forall (λ x, is_linebreak x = false)) (splitlines_from after_cr s).
Proof.
  revert after_cr. induction s as [|c s IH]; intros after_cr; simpl;
    [done|].
  destruct (after_cr && (c =? 10)%N); [done|].
  destruct (is_linebreak c) eqn:Hc; [by constructor|].
  by apply cons_hd_no_breaks.
Qed.

Lemma splitlines_from_line after_cr l :
  l ≠ [] → Forall (λ x, is_linebreak x = false) l →
  splitlines_from after_cr l = [l].
Proof.
  intros Hne Hl. revert after_cr.
  induction Hl as [|c l Hc Hl IH]; intros after_cr; [done|]. simpl.
  replace (after_cr && (c =? 10)%N) with false.
  2:{ destruct after_cr; [|done]. simpl. symmetry. apply N.eqb_neq.
      by intros ->. }
  rewrite Hc. destruct l as [|d l]; [done|]. by rewrite IH.
Qed.

Lemma splitlines_from_app_newline l rest :
  Forall (λ x, is_linebreak x = false) l →
  splitlines_from false (l ++ newline :: rest)
  = l :: splitlines_from false rest.
Proof.
  induction 1 as [|c l Hc Hl IH]; simpl; [done|].
  by rewrite Hc, IH.
Qed.

(** Splitting the joined lines gives the lines back, unless the last
    line is empty. *)
Lemma py_splitlines_join ls :
  Forall (Forall (λ x, is_linebreak x = false)) ls →
  last ls ≠ Some [] →
  py_splitlines (py_join [newline] ls) = ls.
Proof.
  unfold py_splitlines.
  induction 1 as [|l ls Hl Hls IH]; intros Hlast; [done|].
  destruct ls as [|l' ls].
  - simpl. apply splitlines_from_line; [|done]. by intros ->.
  - change (py_join [newline] (l :: l' :: ls))
      with (l ++ newline :: py_join [newline] (l' :: ls)).
    rewrite splitlines_from_app_newline by done. f_equal. by apply IH.
Qed.

Lemma py_join_snoc_nil sep ls :
  ls ≠ [] → py_join sep (ls ++ [[]]) = py_join sep ls ++ sep.
Proof.
  induction ls as [|l ls IH]; [done|]. intros _.
  destruct ls as [|l' ls]; simpl in *.
  - by rewrite app_nil_r.
  - rewrite IH by done. by rewrite <- !app_assoc.
Qed.

Lemma py_lstrip_fixed s :
  (∀ c s', s = c :: s' → is_space c = false) → py_lstrip s = s.
Proof.
  destruct s as [|c s]; [done|]. intros H. simpl.
  by rewrite (H c s).
Qed.

Lemma py_rstrip_idemp s : py_rstrip (py_rstrip s) = py_rstrip s.
Proof.
  induction s as [|c s IH]; [done|]. simpl.
  destruct (py_rstrip s) as [|d r] eqn:E.
  - destruct (is_space c) eqn:Hc; [done|]. simpl. by rewrite Hc.
  - simpl in *. by rewrite IH.
Qed.

Lemma py_rstrip_head c s :
  is_space c = false → ∃ r, py_rstrip (c :: s) = c :: r.
Proof.
  intros Hc. simpl. destruct (py_rstrip s); rewrite ?Hc; eauto.
Qed.

Lemma py_lstrip_head s :
  ∀ c s', py_lstrip s = c :: s' → is_space c = false.
Proof.
  induction s as [|d s IH]; intros c s'; simpl; [done|].
  destruct (is_space d) eqn:Hd; [apply IH|]. by intros [= <- _].
Qed.

(** A stripped line is left alone by [strip]. *)
Lemma py_strip_idemp s : py_strip (py_strip s) = py_strip s.
Proof.
  unfold py_strip.
  rewrite (py_lstrip_fixed (py_rstrip (py_lstrip s))).
  - apply py_rstrip_idemp.
  - intros c s' E. destruct (py_lstrip s) as [|d l] eqn:El; [done|].
    pose proof (py_lstrip_head s d l El) as Hd.
    destruct (py_rstrip_head d l Hd) as [r Hr].
    rewrite Hr in E. by simplify_eq.
Qed.

(** The last step of the cleaner leaves its own output alone, unless
    that output ends with a line feed. *)
Lemma strip_lines_fixed u :
  last (strip_lines u) ≠ Some newline →
  strip_lines (strip_lines u) = strip_lines u.
Proof.
  unfold strip_lines at 1 3 4.
  set (ls := map py_strip (py_splitlines u)). intros Hlast.
  assert (Forall (Forall (λ x, is_linebreak x = false)) ls) as Hls.
  { apply Forall_fmap.
    eapply Forall_impl; [apply splitlines_from_no_breaks|].
    intros l Hl. simpl. eapply Forall_of_sublist; [|done].
    apply py_strip_sublist. }
  assert (map py_strip ls = ls) as Hstrip.
  { unfold ls. rewrite map_map. apply map_ext. intros l.
    apply py_strip_idemp. }
  destruct (decide (last ls = Some [])) as [Hl|Hl].
  - apply last_Some in Hl as [ls' Hls'].
    destruct ls' as [|l ls']; [by rewrite Hls'|].
    exfalso. apply Hlast. rewrite Hls', py_join_snoc_nil by done.
    by rewrite last_snoc.
  - unfold strip_lines. by rewrite py_splitlines_join, Hstrip.
Qed.

(** ** Characters the cleaner removes *)

Lemma star_greedy_is_Some {A} p (k : pystr → option A) s :
  (∀ t, is_Some (k t)) → is_Some (star_greedy p k s).
Proof.
  intros Hk. induction s as [|c s IH]; simpl; [done|].
  destruct (p c); [|done]. by destruct (star_greedy p k s).
Qed.

(** Where every match attempt on a character of [P] succeeds, no such
    character is left. *)
Lemma sub_from_removes r (P : N → bool) skip s :
  (∀ c t, P c = true → ∃ n, match_len r (c :: t) = Some (S n)) →
  Forall (λ c, P c = false) (sub_from r skip s).
Proof.
  intros Hm. revert skip. induction s as [|c s IH]; intros skip; simpl;
    [done|].
  destruct skip as [|n]; [|done].
  destruct (P c) eqn:Hc.
  - destruct (Hm c s Hc) as [n ->]. done.
  - destruct (match_len r (c :: s)) as [[|n]|]; auto.
Qed.

Lemma re_match_comment_is_Some s :
  is_Some (re_match comment_re (ch "%" :: s)).
Proof. unfold re_match. simpl. apply star_greedy_is_Some. eauto. Qed.

Lemma match_len_comment_some s :
  ∃ n, match_len comment_re (ch "%" :: s) = Some (S n).
Proof.
  unfold match_len.
  destruct (re_match_comment_is_Some s) as [[rest cs] E]. rewrite E.
  apply re_match_shorter in E as Hlen; [|done]. simpl in Hlen.
  exists (length s - length rest). f_equal. simpl. lia.
Qed.

Lemma remove_comments_no_percent s :
  Forall (λ c, (c =? ch "%")%N = false) (remove_comments s).
Proof.
  apply (sub_from_removes comment_re (λ c, (c =? ch "%")%N)).
  intros c t ->%N.eqb_eq. apply match_len_comment_some.
Qed.

Lemma remove_braces_no_brace s :
  Forall (λ c, brace c = false) (remove_braces s).
Proof.
  apply (sub_from_removes brace_re brace).
  intros c t Hc. exists 0. unfold match_len, re_match. simpl.
  rewrite Hc. f_equal. lia.
Qed.

Lemma Forall_unify_breaks (P : N → Prop) s :
  P newline → Forall P s → Forall P (unify_breaks s).
Proof.
  intros Hn Hs. apply Forall_fmap. eapply Forall_impl; [done|].
  intros c Hc. simpl. by destruct (is_linebreak c).
Qed.

Lemma Forall_strip_lines (P : N → Prop) s :
  P newline → Forall P s → Forall P (strip_lines s).
Proof.
  intros Hn Hs. eapply Forall_of_sublist; [apply strip_lines_sublist|].
  by apply Forall_unify_breaks.
Qed.

(** The cleaned text holds no percent sign and no brace. *)
Lemma clean_latex_no_markup s :
  Forall (λ c, is_markup c = false) (clean_latex s).
Proof.
  unfold clean_latex. apply Forall_strip_lines; [done|].
  unfold strip_markup.
  assert (Forall (λ c, (c =? ch "%")%N = false)
            (remove_commands
               (remove_math (remove_environments (remove_comments s)))))
    as Hp.
  { eapply Forall_of_sublist; [|apply remove_comments_no_percent].
    unfold remove_commands, remove_math.
    do 5 (etrans; [apply re_sub_sublist|]).
    apply remove_environments_sublist. }
  pose proof (remove_braces_no_brace
                (remove_commands
                   (remove_math
                      (remove_environments (remove_comments s))))) as Hb.
  eapply Forall_of_sublist in Hp; [|apply re_sub_sublist].
  fold (remove_braces
          (remove_commands
             (remove_math (remove_environments (remove_comments s)))))
    in Hp.
  rewrite Forall_forall in *. intros c Hc.
  specialize (Hp c Hc). specialize (Hb c Hc). unfold is_markup, brace in *.
  rewrite Hp. exact Hb.
Qed.

(** ** Deleting inside lines *)

Section Within.
Context (b : N → bool).

Lemma within_refl s : deleted_within b s s.
Proof. induction s; constructor; done. Qed.

Lemma within_app a1 s1 a2 s2 :
  deleted_within b a1 s1 → deleted_within b a2 s2 →
  deleted_within b (a1 ++ a2) (s1 ++ s2).
Proof. induction 1; intros; simpl; try constructor; auto. Qed.

Lemma within_of_sublist a s :
  a `sublist_of` s → Forall (λ c, b c = false) s → deleted_within b a s.
Proof.
  induction 1 as [|c a s _ IH|c a s _ IH]; intros Hs.
  - constructor.
  - apply Forall_cons in Hs as [_ Hs]. constructor. auto.
  - apply Forall_cons in Hs as [Hc Hs]. constructor; auto.
Qed.

Lemma dollar_ahead_within a s :
  deleted_within b a s → dollar_ahead b a = true → dollar_ahead b s = true.
Proof.
  induction 1 as [|c a s _ IH|c a s Hc _ IH]; cbn [dollar_ahead];
    [done|..].
  - destruct (b c); [done|]. destruct (_ =? _)%N; [done|exact IH].
  - rewrite Hc. destruct (_ =? _)%N; auto.
Qed.

Lemma lone_dollars_within a s :
  deleted_within b a s → lone_dollars b s → lone_dollars b a.
Proof.
  induction 1 as [|c a s Hw IH|c a s Hc _ IH]; cbn [lone_dollars];
    [done|..].
  - intros [Hd Hs]. split; [|auto]. intros ->.
    destruct (dollar_ahead b a) eqn:Ha; [|done].
    apply (dollar_ahead_within _ _ Hw) in Ha. rewrite Hd in Ha; done.
  - intros [_ Hs]. auto.
Qed.
End Within.

Lemma star_greedy_span {A} p (k : pystr → option A) s x c :
  p c = false → star_greedy p k s = Some x →
  ∃ pre s', s = pre ++ s' ∧ c ∉ pre ∧ k s' = Some x.
Proof.
  intros Hc. induction s as [|d s IH]; simpl; intros H.
  - exists [], []. split_and!; [done|apply not_elem_of_nil|done].
  - destruct (p d) eqn:Hd; [destruct (star_greedy p k s) eqn:E|].
    + simplify_eq. destruct IH as (pre & s' & -> & Hpre & Hk); [done|].
      exists (d :: pre), s'. split_and!; [done| |done].
      apply not_elem_of_cons. split; [|done]. intros ->. congruence.
    + exists [], (d :: s). split_and!; [done|apply not_elem_of_nil|done].
    + exists [], (d :: s). split_and!; [done|apply not_elem_of_nil|done].
Qed.

Lemma star_lazy_span {A} p (k : pystr → option A) s x c :
  p c = false → star_lazy p k s = Some x →
  ∃ pre s', s = pre ++ s' ∧ c ∉ pre ∧ k s' = Some x.
Proof.
  intros Hc. induction s as [|d s IH]; simpl; intros H.
  - destruct (k []) eqn:E; [|done]. simplify_eq.
    exists [], []. split_and!; [done|apply not_elem_of_nil|done].
  - destruct (k (d :: s)) eqn:E.
    + simplify_eq. exists [], (d :: s).
      split_and!; [done|apply not_elem_of_nil|done].
    + destruct (p d) eqn:Hd; [|done].
      destruct (IH H) as (pre & s' & -> & Hpre & Hk).
      exists (d :: pre), s'. split_and!; [done| |done].
      apply not_elem_of_cons. split; [|done]. intros ->. congruence.
Qed.

(** A match contains no character that its pattern does not accept. *)
Lemma match_re_span r s cs k x c :
  accepts r c = false → match_re r s cs k = Some x →
  ∃ pre s' cs', s = pre ++ s' ∧ c ∉ pre ∧ k s' cs' = Some x.
Proof.
  revert s cs k x.
  induction r as [|a|p|r1 IH1 r2 IH2|r1 IH1|p|p|p|i r1 IH1];
    intros s cs k x; simpl; intros Hc H.
  - exists [], s, cs. split_and!; [done|apply not_elem_of_nil|done].
  - destruct s as [|d s]; [done|].
    destruct (N.eqb_spec d a) as [->|]; [|done].
    exists [a], s, cs. split_and!; [done| |done].
    apply not_elem_of_cons. split; [|apply not_elem_of_nil].
    by apply N.eqb_neq.
  - destruct s as [|d s]; [done|]. destruct (p d) eqn:Hd; [|done].
    exists [d], s, cs. split_and!; [done| |done].
    apply not_elem_of_cons. split; [|apply not_elem_of_nil].
    intros ->. congruence.
  - apply orb_false_iff in Hc as [Hc1 Hc2].
    apply IH1 in H as (pre1 & s1 & cs1 & -> & Hp1 & H); [|done].
    apply IH2 in H as (pre2 & s2 & cs2 & -> & Hp2 & H); [|done].
    exists (pre1 ++ pre2), s2, cs2. split_and!; [by rewrite app_assoc| |done].
    rewrite elem_of_app. tauto.
  - destruct (match_re r1 s cs k) eqn:E.
    + simplify_eq. by apply IH1 in E.
    + exists [], s, cs. split_and!; [done|apply not_elem_of_nil|done].
  - apply (star_greedy_span _ _ _ _ c) in H as (pre & s' & -> & ? & ?);
      [|done].
    by exists pre, s', cs.
  - destruct s as [|d s]; [done|]. destruct (p d) eqn:Hd; [|done].
    apply (star_greedy_span _ _ _ _ c) in H as (pre & s' & -> & ? & ?);
      [|done].
    exists (d :: pre), s', cs. split_and!; [done| |done].
    apply not_elem_of_cons. split; [|done]. intros ->. congruence.
  - apply (star_lazy_span _ _ _ _ c) in H as (pre & s' & -> & ? & ?);
      [|done].
    by exists pre, s', cs.
  - apply IH1 in H as (pre & s' & cs' & -> & ? & ?); [|done].
    by eexists pre, s', _.
Qed.

Lemma match_len_span r s n c :
  accepts r c = false → match_len r s = Some n → c ∉ take n s.
Proof.
  unfold match_len, re_match. intros Hc H.
  destruct (match_re r s [] _) as [[rest cs]|] eqn:E; [|done].
  apply (match_re_span _ _ _ _ _ c) in E as (pre & s' & cs' & -> & Hp & E);
    [|done].
  simplify_eq. rewrite length_app.
  replace (length pre + length rest - length rest) with (length pre) by lia.
  by rewrite take_app_length.
Qed.

Lemma match_len_pos r s : consumes r = true → match_len r s ≠ Some 0.
Proof.
  unfold match_len. intros Hr.
  destruct (re_match r s) as [[rest cs]|] eqn:E; [|done].
  apply re_match_shorter in E; [|done]. intros [= ?]. lia.
Qed.

(** A substitution whose pattern accepts no line feed deletes inside
    lines only. *)
Lemma sub_from_within r skip s :
  accepts r newline = false → newline ∉ take skip s →
  deleted_within is_newline (sub_from r skip s) s.
Proof.
  intros Hr. revert skip.
  induction s as [|c s IH]; intros skip Hskip; simpl; [constructor|].
  assert (∀ n, newline ∉ take (S n) (c :: s) →
               deleted_within is_newline (sub_from r n s) (c :: s)) as Hdrop.
  { intros n [Hc Hn]%not_elem_of_cons. constructor; [|by apply IH].
    apply N.eqb_neq. by intros ->. }
  destruct skip as [|n]; [|by apply Hdrop].
  destruct (match_len r (c :: s)) as [[|n]|] eqn:E.
  - constructor. apply IH. apply not_elem_of_nil.
  - apply Hdrop. by apply (match_len_span r).
  - constructor. apply IH. apply not_elem_of_nil.
Qed.

Lemma re_sub_within r s :
  accepts r newline = false → deleted_within is_newline (re_sub r s) s.
Proof. intros Hr. apply sub_from_within; [done|apply not_elem_of_nil]. Qed.

(** ** Dollar signs *)

Lemma star_lazy_dollar {A} (k : pystr → option A) s :
  (∀ t, is_Some (k t) ↔ ∃ t', t = ch "$" :: t') →
  is_Some (star_lazy dot k s) ↔ dollar_ahead is_newline s = true.
Proof.
  intros Hk. induction s as [|c s IH]; cbn [star_lazy dollar_ahead].
  - destruct (k []) eqn:E; [|by rewrite is_Some_alt].
    assert (is_Some (k [])) as [t' ?]%Hk by eauto. done.
  - destruct (k (c :: s)) eqn:E.
    + assert (is_Some (k (c :: s))) as [t' [= -> ->]]%Hk by eauto.
      split; [reflexivity|eauto].
    + assert (dot c = negb (is_newline c)) as -> by done.
      destruct (is_newline c); cbn [negb].
      { by rewrite is_Some_alt. }
      destruct (N.eqb_spec c (ch "$")) as [->|]; [|exact IH].
      assert (is_Some (k (ch "$" :: s))) as [y Hy] by (apply Hk; eauto).
      congruence.
Qed.

(** An inline-math match starts at a dollar sign exactly when another
    dollar sign follows on the same line. *)
Lemma inline_match_iff s :
  is_Some (re_match inline_math_re (ch "$" :: s))
  ↔ dollar_ahead is_newline s = true.
Proof.
  unfold re_match, inline_math_re, seq_re. cbn [foldr match_re].
  rewrite N.eqb_refl. apply star_lazy_dollar.
  intros [|d t].
  - split; [by intros [? ?]|by intros [? ?]].
  - destruct (N.eqb_spec d (ch "$")) as [->|]; split; eauto.
    + by intros [? ?].
    + intros [t' [= ? ?]]. done.
Qed.

Lemma match_len_inline_none s :
  dollar_ahead is_newline s = false →
  match_len inline_math_re (ch "$" :: s) = None.
Proof.
  intros Hs. unfold match_len.
  destruct (re_match inline_math_re (ch "$" :: s)) as [m|] eqn:E; [|done].
  assert (dollar_ahead is_newline s = true)
    by (apply inline_match_iff; eauto).
  congruence.
Qed.

Lemma match_len_display_none s :
  dollar_ahead is_newline s = false →
  match_len display_dollar_re (ch "$" :: s) = None.
Proof.
  destruct s as [|d s]; [done|]. cbn [dollar_ahead].
  unfold match_len, re_match, display_dollar_re, seq_re.
  change (str "$$") with [ch "$"; ch "$"].
  cbn [foldr lits match_re]. rewrite N.eqb_refl.
  destruct (is_newline d) eqn:Hd.
  - apply N.eqb_eq in Hd as ->. done.
  - by destruct (d =? ch "$")%N.
Qed.

(** After the inline-math step no dollar sign has another one behind it
    on its line. *)
Lemma lone_dollars_inline skip s :
  lone_dollars is_newline (sub_from inline_math_re skip s).
Proof.
  revert skip. induction s as [|c s IH]; intros skip; cbn [sub_from];
    [done|].
  destruct skip as [|n]; [|done].
  destruct (match_len inline_math_re (c :: s)) as [[|n]|] eqn:E; [|done|].
  - by apply match_len_pos in E.
  - cbn [lone_dollars]. split; [|done]. intros ->.
    destruct (dollar_ahead is_newline (sub_from inline_math_re 0 s))
      eqn:Ha; [|done].
    apply (dollar_ahead_within is_newline _ s) in Ha;
      [|by apply re_sub_within].
    apply inline_match_iff in Ha as [[rest cs] Hm].
    unfold match_len in E. by rewrite Hm in E.
Qed.

(** A substitution that can only start at a dollar sign followed by
    another one on its line changes nothing where dollar signs are
    alone. *)
Lemma re_sub_lone r s :
  (∀ c, c ≠ ch "$" → first r c = false) →
  (∀ t, dollar_ahead is_newline t = false →
        match_len r (ch "$" :: t) = None) →
  lone_dollars is_newline s → re_sub r s = s.
Proof.
  intros Hf Hd. unfold re_sub.
  induction s as [|c s IH]; cbn [sub_from lone_dollars]; [done|].
  intros [Hc Hs]. rewrite IH by done.
  destruct (decide (c = ch "$")) as [->|Hne].
  - by rewrite Hd by auto.
  - by rewrite match_len_first by auto.
Qed.

Section Boundaries.
Context (b1 b2 : N → bool).

Lemma dollar_ahead_mono s :
  (∀ c, b1 c = true → b2 c = true) →
  dollar_ahead b2 s = true → dollar_ahead b1 s = true.
Proof.
  intros Hb. induction s as [|c s IH]; cbn [dollar_ahead]; [done|].
  destruct (b2 c) eqn:H2; [done|].
  destruct (b1 c) eqn:H1; [apply Hb in H1; congruence|].
  destruct (_ =? _)%N; auto.
Qed.

Lemma lone_dollars_mono s :
  (∀ c, b1 c = true → b2 c = true) →
  lone_dollars b1 s → lone_dollars b2 s.
Proof.
  intros Hb. induction s as [|c s IH]; cbn [lone_dollars]; [done|].
  intros [Hc Hs]. split; [|auto]. intros ->.
  destruct (dollar_ahead b2 s) eqn:Ha; [|done].
  apply dollar_ahead_mono in Ha; [|done]. rewrite Hc in Ha; done.
Qed.

Lemma dollar_ahead_same s :
  Forall (λ c, b1 c = b2 c) s → dollar_ahead b1 s = dollar_ahead b2 s.
Proof.
  induction 1 as [|c s Hc _ IH]; cbn [dollar_ahead]; [done|].
  rewrite Hc, IH. done.
Qed.

Lemma lone_dollars_same s :
  Forall (λ c, b1 c = b2 c) s → lone_dollars b1 s → lone_dollars b2 s.
Proof.
  induction 1 as [|c s Hc Hs IH]; cbn [lone_dollars]; [done|].
  intros [Hd Hl]. split; [|auto].
  rewrite <- (dollar_ahead_same s) by done. done.
Qed.
End Boundaries.

Lemma py_join_nil_cons_eq sep l ls :
  py_join sep ([] :: l :: ls) = sep ++ py_join sep (l :: ls).
Proof. done. Qed.

Lemma dollar_ahead_splitlines s :
  dollar_ahead is_linebreak (py_join [newline] (splitlines_from false s))
  = true →
  dollar_ahead is_linebreak s = true.
Proof.
  induction s as [|c s IH]; [done|]. cbn [splitlines_from andb].
  destruct (is_linebreak c) eqn:Hc.
  - clear IH. destruct (splitlines_from (c =? 13)%N s) as [|l ls]; [done|].
    rewrite py_join_nil_cons_eq. done.
  - rewrite py_join_cons_hd. cbn [dollar_ahead]. rewrite Hc.
    destruct (_ =? _)%N; auto.
Qed.

Lemma lone_dollars_splitlines after_cr s :
  lone_dollars is_linebreak s →
  lone_dollars is_linebreak
    (py_join [newline] (splitlines_from after_cr s)).
Proof.
  revert after_cr. induction s as [|c s IH]; intros after_cr; [done|].
  intros [Hc Hs]. cbn [splitlines_from].
  destruct (after_cr && (c =? 10)%N); [by apply IH|].
  destruct (is_linebreak c) eqn:Hb.
  - pose proof (IH (c =? 13)%N Hs) as Hl. clear IH.
    destruct (splitlines_from (c =? 13)%N s) as [|l ls]; [done|].
    rewrite py_join_nil_cons_eq. cbn [app lone_dollars].
    split; [done|exact Hl].
  - rewrite py_join_cons_hd. cbn [lone_dollars]. split; [|by apply IH].
    intros ->.
    destruct (dollar_ahead _ (py_join _ (splitlines_from false s)))
      eqn:Ha; [|done].
    apply dollar_ahead_splitlines in Ha. rewrite Hc in Ha; done.
Qed.

Lemma within_join b sep (f : pystr → pystr) ls :
  Forall (λ l, deleted_within b (f l) l) ls →
  deleted_within b (py_join sep (map f ls)) (py_join sep ls).
Proof.
  induction 1 as [|l ls Hl Hls IH]; simpl; [constructor|].
  destruct ls as [|l' ls]; simpl in *; [done|].
  apply within_app; [done|]. apply within_app; [apply within_refl|done].
Qed.

Lemma Forall_py_join (P : N → Prop) sep ls :
  Forall P sep → Forall (Forall P) ls → Forall P (py_join sep ls).
Proof.
  intros Hsep. induction 1 as [|l ls Hl Hls IH]; simpl; [done|].
  destruct ls as [|l' ls]; [done|].
  apply Forall_app. split; [done|]. apply Forall_app. split; done.
Qed.

Lemma strip_lines_no_breaks s :
  Forall (λ c, is_newline c = is_linebreak c) (strip_lines s).
Proof.
  unfold strip_lines. apply Forall_py_join; [by repeat constructor|].
  apply Forall_fmap.
  eapply Forall_impl; [apply (splitlines_from_no_breaks false s)|].
  intros l Hl. simpl.
  eapply Forall_of_sublist; [apply py_strip_sublist|].
  eapply Forall_impl; [exact Hl|]. intros c Hc. simpl in Hc. rewrite Hc.
  unfold is_newline. apply N.eqb_neq. intros ->. done.
Qed.

(** The last step of the cleaner keeps dollar signs alone on their
    lines. *)
Lemma lone_dollars_strip_lines s :
  lone_dollars is_newline s → lone_dollars is_newline (strip_lines s).
Proof.
  intros Hs.
  apply (lone_dollars_same is_linebreak is_newline).
  { eapply Forall_impl; [apply strip_lines_no_breaks|]. done. }
  unfold strip_lines.
  eapply (lone_dollars_within is_linebreak).
  - apply within_join.
    eapply Forall_impl; [apply (splitlines_from_no_breaks false s)|].
    intros l Hl. simpl.
    apply within_of_sublist; [apply py_strip_sublist|done].
  - apply lone_dollars_splitlines.
    apply (lone_dollars_mono is_newline is_linebreak); [|done].
    intros c ->%N.eqb_eq. done.
Qed.

Lemma clean_latex_lone_dollars s : lone_dollars is_newline (clean_latex s).
Proof.
  unfold clean_latex, strip_markup, remove_braces, remove_commands,
    remove_math.
  apply lone_dollars_strip_lines.
  do 3 (eapply lone_dollars_within; [by apply re_sub_within|]).
  apply lone_dollars_inline.
Qed.

(** ** Cleaning a cleaned text *)

Lemma first_env_re env starred c :
  first (env_re env starred) c = (c =? ch "\")%N.
Proof. done. Qed.

Lemma remove_environments_id s :
  ch "\" ∉ s → remove_environments s = s.
Proof.
  intros Hs.
  assert (∀ env starred, re_sub (env_re env starred) s = s) as Henv.
  { intros env starred. apply re_sub_id, Forall_forall. intros c Hc.
    rewrite first_env_re. apply N.eqb_neq. by intros ->. }
  unfold remove_environments.
  induction environments_to_remove as [|env l IH]; simpl; [done|].
  by rewrite !Henv.
Qed.

(** The deleting steps leave alone a text without percent sign, brace
    or backslash in which dollar signs are alone on their lines. *)
Lemma strip_markup_id t :
  Forall (λ c, is_markup c = false) t → ch "\" ∉ t →
  lone_dollars is_newline t → strip_markup t = t.
Proof.
  intros Hm Hb Hd.
  assert (∀ r, (∀ c, first r c = true → c = ch "\" ∨ is_markup c = true) →
               re_sub r t = t) as Hid.
  { intros r Hr. apply re_sub_id, Forall_forall. intros c Hc.
    destruct (first r c) eqn:Hf; [|done].
    destruct (Hr c Hf) as [->|Hmc]; [done|].
    rewrite Forall_forall in Hm. rewrite (Hm c Hc) in Hmc. done. }
  unfold strip_markup, remove_braces, remove_commands, remove_math,
    remove_comments.
  rewrite (Hid comment_re).
  2:{ intros c Hc. right.
      change (first comment_re c) with (c =? ch "%")%N in Hc.
      unfold is_markup. by rewrite Hc. }
  rewrite remove_environments_id by done.
  rewrite (re_sub_lone display_dollar_re);
    [|by intros c ?%N.eqb_neq|apply match_len_display_none|done].
  rewrite (Hid display_bracket_re).
  2:{ intros c Hc%N.eqb_eq. by left. }
  rewrite (re_sub_lone inline_math_re);
    [|by intros c ?%N.eqb_neq|apply match_len_inline_none|done].
  rewrite (Hid command_args_re).
  2:{ intros c Hc%N.eqb_eq. by left. }
  rewrite (Hid command_re).
  2:{ intros c Hc%N.eqb_eq. by left. }
  apply Hid. intros c Hc. right.
  change (first brace_re c) with (brace c) in Hc.
  unfold is_markup, brace in *. by destruct (c =? ch "%")%N.
Qed.

(** * The claims *)

(** C1 (the code departs from the claim).  On the scenario input
    [\section{Intro} Hello world. \subsection{Background} Some background
    text here.] the counter reports one section "Intro" of one word, the
    word of its title, no subsection, and a total of one: the split list
    carries the title after each header, and the loop reads that title as
    the body of the section. *)
Theorem scenario_intro_background :
  parse_and_count
    (str "\section{Intro} Hello world. \subsection{Background} Some background text here.")
  = Some (Tree {| total_words := 1;
                  preamble := None;
                  sections := [{| title := str "Intro";
                                  word_count := 1;
                                  subsections := [] |}] |}).
Proof. vm_compute. reflexivity. Qed.

(** C2 (the code departs from the claim).  Of two section headers only
    the first yields a node, and the words counted for it are those of
    its title, not of its body. *)
Theorem second_section_skipped :
  parse_and_count (str "\section{A} one two three \section{B} four")
  = Some (Tree {| total_words := 1;
                  preamble := None;
                  sections := [{| title := str "A";
                                  word_count := 1;
                                  subsections := [] |}] |}).
Proof. vm_compute. reflexivity. Qed.

(** C3.  In LaTeX mode a result is produced, its total is the preamble
    count (0 when there is no preamble node) plus the sum of the section
    counts, and every section count covers the counts of the subsections
    kept under it. *)
Theorem total_is_sum_of_parts content :
  is_latex content = true →
  ∃ res, parse_and_count content = Some (Tree res)
         ∧ total_words res
           = default 0 (preamble res)
             + sum_list_with word_count (sections res)
         ∧ Forall (λ sd, sum_list_with sub_word_count (subsections sd)
                         ≤ word_count sd) (sections res).
Proof.
  intros Hl. unfold parse_and_count. rewrite Hl.
  destruct (parse_latex_is_Some content) as [res Hres].
  exists res. rewrite Hres. split; [done|].
  exact (parse_latex_sum_law content res Hres).
Qed.

Lemma total_is_sum_of_parts_witness :
  let content := str "intro words \section{A} x \subsection{B} y" in
  is_latex content = true
  ∧ ∃ res, parse_and_count content = Some (Tree res)
           ∧ total_words res
             = default 0 (preamble res)
               + sum_list_with word_count (sections res)
           ∧ Forall (λ sd, sum_list_with sub_word_count (subsections sd)
                           ≤ word_count sd) (sections res).
Proof.
  intros content. split; [reflexivity|].
  apply (total_is_sum_of_parts content). reflexivity.
Defined.

(** C4.  A text in which none of [\section], [\subsection] and
    [\documentclass] occurs is handled as plain text: the count reported
    is the number of tokens of [content.split()] on the raw text, that
    is the number of places where a word starts; the tokens are
    non-empty, free of whitespace, and together make up the
    non-whitespace characters of the text. *)
Theorem plain_text_word_count (content : list N) :
  ¬ occurs_in (str "\section") content →
  ¬ occurs_in (str "\subsection") content →
  ¬ occurs_in (str "\documentclass") content →
  parse_and_count content = Some (PlainText (length (py_split content)))
  ∧ length (py_split content) = word_starts false content
  ∧ Forall (λ t, t ≠ [] ∧ Forall (λ c, is_space c = false) t)
      (py_split content)
  ∧ concat (py_split content) = filter (λ c, is_space c = false) content.
Proof.
  intros H1 H2 H3. unfold parse_and_count, is_latex.
  rewrite !contains_false by done. simpl. split; [done|].
  split; [apply count_words_starts|apply py_split_tokens].
Qed.

Lemma plain_text_word_count_witness :
  let content := str "Just plain text with five words" in
  ¬ occurs_in (str "\section") content
  ∧ ¬ occurs_in (str "\subsection") content
  ∧ ¬ occurs_in (str "\documentclass") content
  ∧ parse_and_count content = Some (PlainText 6).
Proof.
  intros content.
  assert (∀ p, contains p content = false → ¬ occurs_in p content) as Hno.
  { intros p Hp Ho. apply contains_spec in Ho. congruence. }
  assert (¬ occurs_in (str "\section") content) as H1
    by (apply Hno; reflexivity).
  assert (¬ occurs_in (str "\subsection") content) as H2
    by (apply Hno; reflexivity).
  assert (¬ occurs_in (str "\documentclass") content) as H3
    by (apply Hno; reflexivity).
  split_and!; [done|done|done|].
  exact (proj1 (plain_text_word_count content H1 H2 H3)).
Defined.

(** C5 (counterexample).  An escaped percent starts a comment like any
    other: the text after [\%] on the same line is removed. *)
Lemma escaped_percent_starts_comment :
  remove_comments (str "50\% of users") = str "50\"
  ∧ remove_comments (str "50\% of users") ≠ str "50\% of users".
Proof. split; [reflexivity|discriminate]. Qed.

(** C5 (amended).  The comment step removes everything from the first
    percent sign of a line to the end of that line, whatever precedes
    the percent sign, a backslash included; the line feed that ends the
    line stays. *)
Theorem remove_comments_line pre com rest :
  ch "%" ∉ pre → newline ∉ com →
  (rest = [] ∨ ∃ r, rest = newline :: r) →
  remove_comments (pre ++ ch "%" :: com ++ rest)
  = pre ++ remove_comments rest.
Proof.
  intros Hpre Hcom Hrest. unfold remove_comments, re_sub.
  rewrite sub_from_app_copy.
  - f_equal. cbn [sub_from]. rewrite match_len_comment by done.
    apply sub_from_app_skip.
  - apply Forall_forall. intros c Hc. simpl.
    apply N.eqb_neq. by intros ->.
Qed.

Lemma remove_comments_line_witness :
  ch "%" ∉ str "50\" ∧ newline ∉ str " of users"
  ∧ remove_comments (str "50\" ++ ch "%" :: str " of users" ++ [])
    = str "50\" ++ remove_comments [].
Proof.
  assert (ch "%" ∉ str "50\") as H1 by (cbv; not_in_list).
  assert (newline ∉ str " of users") as H2 by (cbv; not_in_list).
  split_and!; [done|done|].
  apply (remove_comments_line (str "50\") (str " of users") [] H1 H2).
  by left.
Defined.

(** C6 (the code departs from the claim).  The optional part of the
    pattern meant for a bracketed option asks for a backslash where the
    bracket should be, so the option is never matched: cleaning
    [\cmd[opt]{arg}] removes the command name only in the command step,
    and the option and the argument text stay in the output. *)
Theorem bracket_option_survives :
  re_sub command_args_re (str "\cmd[opt]{arg}") = str "[opt]{arg}"
  ∧ clean_latex (str "\cmd[opt]{arg}") = str "[opt]arg".
Proof. split; vm_compute; reflexivity. Qed.

(** C7 (counterexample).  Cleaning twice differs from cleaning once: an
    escaped brace leaves a backslash that the second pass reads as the
    start of a command, and a text that ends in a blank line loses one
    more line feed on the second pass. *)
Lemma clean_latex_not_idempotent :
  clean_latex (clean_latex (str "\{a")) ≠ clean_latex (str "\{a")
  ∧ clean_latex (clean_latex (str "a" ++ [newline; newline]))
    ≠ clean_latex (str "a" ++ [newline; newline]).
Proof. split; vm_compute; discriminate. Qed.

(** C7 (amended).  Cleaning is idempotent on every input whose cleaned
    text holds no backslash and does not end with a line feed. *)
Theorem clean_latex_idempotent_on_plain_output s :
  ch "\" ∉ clean_latex s → last (clean_latex s) ≠ Some newline →
  clean_latex (clean_latex s) = clean_latex s.
Proof.
  intros Hb Hl. unfold clean_latex at 1.
  rewrite strip_markup_id;
    [|apply clean_latex_no_markup|done|apply clean_latex_lone_dollars].
  unfold clean_latex in *. by apply strip_lines_fixed.
Qed.

Lemma clean_latex_idempotent_on_plain_output_witness :
  let s := str "Hello \textbf{big} world $x^2$ done % note" in
  ch "\" ∉ clean_latex s ∧ last (clean_latex s) ≠ Some newline
  ∧ clean_latex (clean_latex s) = clean_latex s.
Proof.
  intros s.
  assert (ch "\" ∉ clean_latex s) as H1 by (vm_compute; not_in_list).
  assert (last (clean_latex s) ≠ Some newline) as H2
    by (vm_compute; discriminate).
  split_and!; [done|done|].
  exact (clean_latex_idempotent_on_plain_output s H1 H2).
Defined.

(** C8 (the code departs from the claim).  A subsection whose cleaned
    text has one word is not listed under its section: the text handed
    to the subsection split is the section's title, which holds no
    subsection header. *)
Theorem positive_subsection_dropped :
  count_words (clean_latex (str " word")) = 1
  ∧ parse_and_count (str "\section{A}\subsection{B} word")
    = Some (Tree {| total_words := 1;
                    preamble := None;
                    sections := [{| title := str "A";
                                    word_count := 1;
                                    subsections := [] |}] |}).
Proof. split; vm_compute; reflexivity. Qed.

(** C9.  The sectional counter ends without a fault on every input: in
    the model every list access is checked, and the run still returns a
    result. *)
Theorem parse_and_count_no_fault content :
  ∃ out, parse_and_count content = Some out.
Proof.
  unfold parse_and_count. destruct (is_latex content); [|eauto].
  destruct (parse_latex_is_Some content) as [res ->]. simpl. eauto.
Qed.

(** C10.  Cleaning never increases the word count. *)
Theorem clean_latex_count_le s :
  count_words (clean_latex s) ≤ count_words s.
Proof.
  unfold clean_latex. etrans; [apply count_words_strip_lines|].
  apply count_words_sublist, strip_markup_sublist.
Qed.

(** * Further properties *)

(** ** Delimited spans *)

Lemma match_re_lits l s cs k :
  match_re (lits l) s cs k
  = if is_prefix l s then k (drop (length l) s) cs else None.
Proof.
  revert s. induction l as [|a l IH]; intros s; [done|].
  destruct s as [|x s]; [done|].
  cbn [lits foldr match_re is_prefix length drop].
  rewrite (N.eqb_sym a x). destruct (x =? a)%N; [|done]. apply IH.
Qed.

(** A lazy repetition stops at the first place where the rest of the
    pattern succeeds. *)
Lemma star_lazy_first {A} p (k : pystr → option A) body rest x :
  Forall (λ c, p c = true) body →
  (∀ a b, body = a ++ b → b ≠ [] → k (b ++ rest) = None) →
  k rest = Some x → star_lazy p k (body ++ rest) = Some x.
Proof.
  intros Hp. revert rest.
  induction Hp as [|c body Hc _ IH]; intros rest Hnone Hk.
  - destruct rest; simpl; by rewrite Hk.
  - pose proof (Hnone [] (c :: body) eq_refl ltac:(done)) as H0.
    cbn [app] in *. cbn [star_lazy]. rewrite H0, Hc.
    apply IH; [|done]. intros a b -> Hb. by apply (Hnone (c :: a) b).
Qed.

Lemma is_prefix_app l s : is_prefix l (l ++ s) = true.
Proof. apply is_prefix_spec. by exists s. Qed.

Lemma is_prefix_head_ne a l x s : x ≠ a → is_prefix (a :: l) (x :: s) = false.
Proof.
  intros H. simpl. apply andb_false_iff. left. apply N.eqb_neq. congruence.
Qed.

Lemma match_len_delimited o opn c cls body post :
  c ∉ body →
  match_len (delimited_re (o :: opn) (c :: cls))
    ((o :: opn) ++ body ++ (c :: cls) ++ post)
  = Some (length (o :: opn) + length body + length (c :: cls)).
Proof.
  intros Hc. unfold match_len, re_match, delimited_re, seq_re.
  cbn [foldr match_re]. rewrite match_re_lits, is_prefix_app.
  rewrite drop_app_length.
  rewrite (star_lazy_first (A := pystr * caps) any _ body
             ((c :: cls) ++ post) (post, [])).
  - f_equal. rewrite !length_app. lia.
  - by apply Forall_forall.
  - intros a [|x b] -> Hb; [done|].
    rewrite match_re_lits. cbn [app]. rewrite is_prefix_head_ne; [done|].
    intros ->. apply Hc. rewrite elem_of_app. right. by left.
  - rewrite match_re_lits, is_prefix_app. cbn [match_re].
    rewrite drop_app_length. done.
Qed.

(** A delimited span whose text holds no closing delimiter earlier is
    deleted whole, and the scan resumes after it. *)
Lemma re_sub_delimited o opn c cls pre body post :
  o ∉ pre → c ∉ body →
  re_sub (delimited_re (o :: opn) (c :: cls))
    (pre ++ (o :: opn) ++ body ++ (c :: cls) ++ post)
  = pre ++ re_sub (delimited_re (o :: opn) (c :: cls)) post.
Proof.
  intros Ho Hc. unfold re_sub. rewrite sub_from_app_copy.
  2:{ apply Forall_forall. intros x Hx.
      change (first (delimited_re (o :: opn) (c :: cls)) x) with (x =? o)%N.
      apply N.eqb_neq. by intros ->. }
  f_equal. cbn [app sub_from].
  change (o :: opn ++ body ++ c :: cls ++ post)
    with ((o :: opn) ++ body ++ (c :: cls) ++ post).
  rewrite match_len_delimited by done. cbn [length Nat.add].
  replace (opn ++ body ++ c :: cls ++ post)
    with ((opn ++ body ++ c :: cls) ++ post)
    by (by rewrite <- !app_assoc).
  replace (length opn + length body + S (length cls))
    with (length (opn ++ body ++ c :: cls))
    by (rewrite !length_app; simpl; lia).
  apply sub_from_app_skip.
Qed.

(** X1.  An environment block whose text before it and inside it holds
    no backslash is deleted whole by the substitution for that
    environment: the text before it stays, and the scan goes on after
    the closing [\end]. *)
Theorem environment_block_removed (env : list N) (starred : bool)
    (pre body post : list N) :
  let name := env ++ (if starred then str "*" else []) in
  ch "\" ∉ pre → ch "\" ∉ body →
  re_sub (env_re env starred)
    (pre ++ (str "\begin{" ++ name ++ str "}") ++ body
         ++ (str "\end{" ++ name ++ str "}") ++ post)
  = pre ++ re_sub (env_re env starred) post.
Proof.
  intros name Hpre Hbody.
  exact (re_sub_delimited (ch "\") (str "begin{" ++ name ++ str "}")
           (ch "\") (str "end{" ++ name ++ str "}") pre body post
           Hpre Hbody).
Qed.

Lemma environment_block_removed_witness :
  ch "\" ∉ str "see " ∧ ch "\" ∉ str "E=mc^2"
  ∧ re_sub (env_re (str "equation") true)
      (str "see " ++ (str "\begin{" ++ str "equation*" ++ str "}")
         ++ str "E=mc^2" ++ (str "\end{" ++ str "equation*" ++ str "}")
         ++ str " text after")
    = str "see " ++ re_sub (env_re (str "equation") true) (str " text after").
Proof.
  assert (ch "\" ∉ str "see ") as H1 by (cbv; not_in_list).
  assert (ch "\" ∉ str "E=mc^2") as H2 by (cbv; not_in_list).
  split_and!; [done|done|].
  exact (environment_block_removed (str "equation") true (str "see ")
           (str "E=mc^2") (str " text after") H1 H2).
Defined.

(** A match of a delimited pattern needs its closing delimiter. *)
Lemma re_match_delimited_occurs opn cls s m :
  re_match (delimited_re opn cls) s = Some m → occurs_in cls s.
Proof.
  unfold re_match, delimited_re, seq_re. cbn [foldr match_re].
  rewrite match_re_lits. destruct (is_prefix opn s); [|done].
  intros (s' & [a Ha] & Hk)%star_lazy_inv.
  rewrite match_re_lits in Hk.
  destruct (is_prefix cls s') eqn:Hp; [|done].
  apply is_prefix_spec in Hp as [b ->].
  rewrite <- (take_drop (length opn) s), Ha.
  exists (take (length opn) s ++ a), b. by rewrite <- app_assoc.
Qed.

Lemma occurs_in_suffix p t s : t `suffix_of` s → occurs_in p t → occurs_in p s.
Proof.
  intros [k ->] (a & b & ->). exists (k ++ a), b. by rewrite <- app_assoc.
Qed.

Lemma occurs_in_app p q s : occurs_in (p ++ q) s → occurs_in p s.
Proof.
  intros (a & b & ->). exists a, (q ++ b). by rewrite <- app_assoc.
Qed.

(** A text in which no suffix starts with a match is left alone. *)
Lemma re_sub_no_match r s :
  (∀ t, t `suffix_of` s → match_len r t = None) → re_sub r s = s.
Proof.
  unfold re_sub. induction s as [|c s IH]; intros H; simpl; [done|].
  rewrite (H (c :: s)) by done. f_equal. apply IH.
  intros t Ht. apply H. by apply suffix_cons_r.
Qed.

Lemma re_sub_delimited_unclosed opn cls s :
  ¬ occurs_in cls s → re_sub (delimited_re opn cls) s = s.
Proof.
  intros Hno. apply re_sub_no_match. intros t Ht. unfold match_len.
  destruct (re_match (delimited_re opn cls) t) as [m|] eqn:E; [|done].
  exfalso. apply Hno. eapply occurs_in_suffix; [done|].
  by eapply re_match_delimited_occurs.
Qed.

(** X2.  The environment step leaves alone a text in which [\end{]
    does not occur: an environment that is opened and never closed is
    not removed, and nothing else is. *)
Theorem unclosed_environments_kept s :
  ¬ occurs_in (str "\end{") s → remove_environments s = s.
Proof.
  intros Hno.
  assert (∀ env starred, re_sub (env_re env starred) s = s) as Henv.
  { intros env starred.
    apply (re_sub_delimited_unclosed
             (str "\begin{" ++ (env ++ (if starred then str "*" else []))
                  ++ str "}")
             (str "\end{" ++ (env ++ (if starred then str "*" else []))
                  ++ str "}")).
    intros Ho. apply Hno. by apply occurs_in_app in Ho. }
  unfold remove_environments.
  induction environments_to_remove as [|env l IH]; simpl; [done|].
  by rewrite !Henv.
Qed.

Lemma unclosed_environments_kept_witness :
  let s := str "a \begin{equation} x = y and more" in
  ¬ occurs_in (str "\end{") s ∧ remove_environments s = s.
Proof.
  intros s.
  assert (¬ occurs_in (str "\end{") s) as H.
  { intros Ho. apply contains_spec in Ho. vm_compute in Ho. discriminate. }
  split; [done|]. exact (unclosed_environments_kept s H).
Defined.

(** X3.  Display math between [$$] and [$$] is deleted whole when no
    dollar sign comes before it or inside it. *)
Theorem display_dollar_removed pre body post :
  ch "$" ∉ pre → ch "$" ∉ body →
  re_sub display_dollar_re (pre ++ str "$$" ++ body ++ str "$$" ++ post)
  = pre ++ re_sub display_dollar_re post.
Proof.
  intros Hpre Hbody.
  exact (re_sub_delimited (ch "$") [ch "$"] (ch "$") [ch "$"]
           pre body post Hpre Hbody).
Qed.

Lemma display_dollar_removed_witness :
  ch "$" ∉ str "so " ∧ ch "$" ∉ [ch "x"; newline; ch "y"]
  ∧ re_sub display_dollar_re
      (str "so " ++ str "$$" ++ [ch "x"; newline; ch "y"] ++ str "$$"
           ++ str " holds")
    = str "so " ++ re_sub display_dollar_re (str " holds").
Proof.
  assert (ch "$" ∉ str "so ") as H1 by (cbv; not_in_list).
  assert (ch "$" ∉ [ch "x"; newline; ch "y"]) as H2 by (cbv; not_in_list).
  split_and!; [done|done|].
  exact (display_dollar_removed _ _ _ H1 H2).
Defined.

(** X4.  Display math between [\[] and [\]] is deleted whole when no
    backslash comes before it or inside it. *)
Theorem display_bracket_removed pre body post :
  ch "\" ∉ pre → ch "\" ∉ body →
  re_sub display_bracket_re (pre ++ str "\[" ++ body ++ str "\]" ++ post)
  = pre ++ re_sub display_bracket_re post.
Proof.
  intros Hpre Hbody.
  exact (re_sub_delimited (ch "\") [ch "["] (ch "\") [ch "]"]
           pre body post Hpre Hbody).
Qed.

Lemma display_bracket_removed_witness :
  ch "\" ∉ str "so " ∧ ch "\" ∉ str " a = b "
  ∧ re_sub display_bracket_re
      (str "so " ++ str "\[" ++ str " a = b " ++ str "\]" ++ str " holds")
    = str "so " ++ re_sub display_bracket_re (str " holds").
Proof.
  assert (ch "\" ∉ str "so ") as H1 by (cbv; not_in_list).
  assert (ch "\" ∉ str " a = b ") as H2 by (cbv; not_in_list).
  split_and!; [done|done|].
  exact (display_bracket_removed _ _ _ H1 H2).
Defined.

(** ** Inline math and commands *)

Lemma match_len_inline body post :
  ch "$" ∉ body → newline ∉ body →
  match_len inline_math_re (ch "$" :: body ++ ch "$" :: post)
  = Some (S (length body + 1)).
Proof.
  intros Hd Hn. unfold match_len, re_match, inline_math_re, seq_re.
  cbn [foldr match_re]. rewrite N.eqb_refl.
  rewrite (star_lazy_first (A := pystr * caps) dot _ body
             (ch "$" :: post) (post, [])).
  - f_equal. cbn [length]. rewrite length_app. cbn [length]. lia.
  - apply Forall_forall. intros c Hc. unfold dot.
    apply negb_true_iff, N.eqb_neq. by intros ->.
  - intros a [|x b] -> Hb; [done|]. cbn [app match_re].
    destruct (N.eqb_spec x (ch "$")) as [->|]; [|done].
    exfalso. apply Hd. rewrite elem_of_app. right. by left.
  - cbn [match_re]. by rewrite N.eqb_refl.
Qed.

(** X5.  An inline formula [$...$] with no line feed inside is deleted
    whole by the inline-math substitution when no dollar sign comes
    before it. *)
Theorem inline_math_removed pre body post :
  ch "$" ∉ pre → ch "$" ∉ body → newline ∉ body →
  re_sub inline_math_re (pre ++ ch "$" :: body ++ ch "$" :: post)
  = pre ++ re_sub inline_math_re post.
Proof.
  intros Hpre Hd Hn. unfold re_sub. rewrite sub_from_app_copy.
  2:{ apply Forall_forall. intros x Hx.
      change (first inline_math_re x) with (x =? ch "$")%N.
      apply N.eqb_neq. by intros ->. }
  f_equal. cbn [sub_from]. rewrite match_len_inline by done.
  replace (body ++ ch "$" :: post) with ((body ++ [ch "$"]) ++ post)
    by (by rewrite <- app_assoc).
  replace (length body + 1) with (length (body ++ [ch "$"]))
    by (by rewrite length_app).
  apply sub_from_app_skip.
Qed.

Lemma inline_math_removed_witness :
  ch "$" ∉ str "\section{A} " ∧ ch "$" ∉ str "x^2 + y^2 = z^2"
  ∧ newline ∉ str "x^2 + y^2 = z^2"
  ∧ re_sub inline_math_re
      (str "\section{A} " ++ ch "$" :: str "x^2 + y^2 = z^2"
         ++ ch "$" :: str " done")
    = str "\section{A} " ++ re_sub inline_math_re (str " done").
Proof.
  assert (ch "$" ∉ str "\section{A} ") as H1 by (cbv; not_in_list).
  assert (ch "$" ∉ str "x^2 + y^2 = z^2") as H2 by (cbv; not_in_list).
  assert (newline ∉ str "x^2 + y^2 = z^2") as H3 by (cbv; not_in_list).
  split_and!; [done|done|done|].
  exact (inline_math_removed _ _ _ H1 H2 H3).
Defined.

Lemma match_len_command_args n0 name arg post :
  Forall (λ c, letter c = true) (n0 :: name) →
  ch "}" ∉ arg → newline ∉ arg →
  match_len command_args_re
    (ch "\" :: (n0 :: name) ++ ch "{" :: arg ++ ch "}" :: post)
  = Some (S (length (n0 :: name) + S (length arg + 1))).
Proof.
  intros [Hn0 Hname]%Forall_cons Hb Hnl.
  unfold match_len, re_match, command_args_re, seq_re.
  cbn [foldr match_re app]. rewrite N.eqb_refl, Hn0.
  erewrite (star_greedy_run letter _ name); [| |right|]; first last.
  - change ((ch "{" =? ch "\")%N) with false. cbn [match_re].
    change ((ch "{" =? ch "{")%N) with true. cbn iota.
    rewrite (star_lazy_first (A := pystr * caps) dot _ arg
               (ch "}" :: post) (post, [])); [done| | |].
    + apply Forall_forall. intros c Hc. unfold dot.
      apply negb_true_iff, N.eqb_neq. by intros ->.
    + intros a [|x b] -> Hne; [done|]. cbn [app match_re].
      destruct (N.eqb_spec x (ch "}")) as [->|]; [|done].
      exfalso. apply Hb. rewrite elem_of_app. right. by left.
    + cbn [match_re]. by rewrite N.eqb_refl.
  - by eexists _, _.
  - done.
  - f_equal. cbn [length]. rewrite !length_app. cbn [length].
    rewrite length_app. cbn [length]. lia.
Qed.

(** X6.  A command followed directly by a braced argument is deleted
    together with the text of the argument, when the argument holds no
    closing brace and no line feed and no backslash comes before the
    command. *)
Theorem command_with_argument_removed n0 name arg pre post :
  ch "\" ∉ pre → Forall (λ c, letter c = true) (n0 :: name) →
  ch "}" ∉ arg → newline ∉ arg →
  re_sub command_args_re
    (pre ++ ch "\" :: (n0 :: name) ++ ch "{" :: arg ++ ch "}" :: post)
  = pre ++ re_sub command_args_re post.
Proof.
  intros Hpre Hname Hb Hnl. unfold re_sub. rewrite sub_from_app_copy.
  2:{ apply Forall_forall. intros x Hx.
      change (first command_args_re x) with (x =? ch "\")%N.
      apply N.eqb_neq. by intros ->. }
  f_equal. cbn [sub_from]. rewrite match_len_command_args by done.
  replace ((n0 :: name) ++ ch "{" :: arg ++ ch "}" :: post)
    with (((n0 :: name) ++ ch "{" :: arg ++ [ch "}"]) ++ post)
    by (cbn [app]; rewrite <- !app_assoc; cbn [app];
        rewrite <- !app_assoc; done).
  replace (length (n0 :: name) + S (length arg + 1))
    with (length ((n0 :: name) ++ ch "{" :: arg ++ [ch "}"]))
    by (rewrite length_app; cbn [length]; rewrite length_app; done).
  apply sub_from_app_skip.
Qed.

Lemma command_with_argument_removed_witness :
  ch "\" ∉ str "Hello " ∧ Forall (λ c, letter c = true) (str "textbf")
  ∧ ch "}" ∉ str "big" ∧ newline ∉ str "big"
  ∧ re_sub command_args_re
      (str "Hello " ++ ch "\" :: str "textbf" ++ ch "{" :: str "big"
         ++ ch "}" :: str " world")
    = str "Hello " ++ re_sub command_args_re (str " world").
Proof.
  assert (ch "\" ∉ str "Hello ") as H1 by (cbv; not_in_list).
  assert (Forall (λ c, letter c = true) (str "textbf")) as H2
    by (repeat constructor).
  assert (ch "}" ∉ str "big") as H3 by (cbv; not_in_list).
  assert (newline ∉ str "big") as H4 by (cbv; not_in_list).
  split_and!; [done|done|done|done|].
  exact (command_with_argument_removed (ch "t") (str "extbf") (str "big")
           (str "Hello ") (str " world") H1 H2 H3 H4).
Defined.

(** ** The cleaned text *)

(** X7.  The cleaned text never holds a percent sign or a brace. *)
Theorem cleaned_text_has_no_markup s :
  Forall (λ c, c ≠ ch "%" ∧ c ≠ ch "{" ∧ c ≠ ch "}") (clean_latex s).
Proof.
  eapply Forall_impl; [apply clean_latex_no_markup|].
  intros c Hc. unfold is_markup in Hc.
  apply orb_false_iff in Hc as [[H1 H2]%orb_false_iff H3].
  by apply N.eqb_neq in H1, H2, H3.
Qed.

(** X8.  The cleaned text is made of trimmed lines joined by line
    feeds: no line starts or ends with whitespace, and the line feed is
    the only line boundary left. *)
Theorem cleaned_lines_trimmed s :
  ∃ ls, clean_latex s = py_join [newline] ls
        ∧ Forall (λ l, py_strip l = l
                       ∧ Forall (λ c, is_linebreak c = false) l) ls.
Proof.
  exists (map py_strip (py_splitlines (strip_markup s))).
  split; [done|]. apply Forall_fmap.
  eapply Forall_impl; [apply splitlines_from_no_breaks|].
  intros l Hl. simpl. split; [apply py_strip_idemp|].
  eapply Forall_of_sublist; [apply py_strip_sublist|done].
Qed.

(** X9.  In the cleaned text no inline or [$$] formula is left: running
    the two dollar substitutions again changes nothing. *)
Theorem cleaned_text_has_no_dollar_math s :
  re_sub inline_math_re (clean_latex s) = clean_latex s
  ∧ re_sub display_dollar_re (clean_latex s) = clean_latex s.
Proof.
  pose proof (clean_latex_lone_dollars s) as Hl. split.
  - apply re_sub_lone;
      [by intros c ?%N.eqb_neq|apply match_len_inline_none|done].
  - apply re_sub_lone;
      [by intros c ?%N.eqb_neq|apply match_len_display_none|done].
Qed.

Lemma lone_dollars_no_dollar b s : ch "$" ∉ s → lone_dollars b s.
Proof.
  induction s as [|c s IH]; cbn [lone_dollars]; [done|].
  intros [Hc Hs]%not_elem_of_cons. split; [|auto]. intros ->. done.
Qed.

(** ** Words and lines *)

Lemma word_starts_lstrip s :
  word_starts false (py_lstrip s) = word_starts false s.
Proof.
  induction s as [|c s IH]; [done|]. simpl.
  destruct (is_space c) eqn:Hc; [done|]. simpl. by rewrite Hc.
Qed.

Lemma word_starts_rstrip w s :
  word_starts w (py_rstrip s) = word_starts w s.
Proof.
  revert w. induction s as [|c s IH]; intros w; [done|]. simpl.
  destruct (py_rstrip s) as [|d r] eqn:E.
  - destruct (is_space c) eqn:Hc; simpl; rewrite ?Hc, <- IH; done.
  - simpl in *. destruct (is_space c); by rewrite <- IH.
Qed.

Lemma word_starts_strip s :
  word_starts false (py_strip s) = word_starts false s.
Proof.
  unfold py_strip. by rewrite word_starts_rstrip, word_starts_lstrip.
Qed.

(** Words do not reach across a whitespace character. *)
Lemma word_starts_app_space w a c b :
  is_space c = true →
  word_starts w (a ++ c :: b) = word_starts w a + word_starts false b.
Proof.
  intros Hc. revert w. induction a as [|x a IH]; intros w; simpl.
  - by rewrite Hc.
  - destruct (is_space x); rewrite IH; lia.
Qed.

(** The words of a list of lines: those of the first line, which may
    continue a word started before it, and those of the other lines. *)
Lemma word_starts_join w l ls :
  word_starts w (py_join [newline] (l :: ls))
  = word_starts w l + sum_list_with (word_starts false) ls.
Proof.
  revert w l. induction ls as [|l' ls IH]; intros w l.
  - simpl. lia.
  - change (py_join [newline] (l :: l' :: ls))
      with (l ++ newline :: py_join [newline] (l' :: ls)).
    rewrite word_starts_app_space by done. rewrite IH. simpl. lia.
Qed.

Lemma word_starts_cons_hd w c ls :
  word_starts w (py_join [newline] (cons_hd c ls))
  = word_starts w (c :: py_join [newline] ls).
Proof. by rewrite py_join_cons_hd. Qed.

Lemma word_starts_splitlines w after_cr s :
  (after_cr = true → w = false) →
  word_starts w (py_join [newline] (splitlines_from after_cr s))
  = word_starts w s.
Proof.
  revert w after_cr. induction s as [|c s IH]; intros w after_cr Hcr;
    [done|].
  cbn [splitlines_from].
  destruct (after_cr && (c =? 10)%N) eqn:Hskip.
  - apply andb_true_iff in Hskip as [-> ->%N.eqb_eq].
    rewrite Hcr by done. simpl. by apply IH.
  - destruct (is_linebreak c) eqn:Hb.
    + pose proof (is_linebreak_space c Hb) as Hs.
      cbn [word_starts]. rewrite Hs.
      rewrite <- (IH false (c =? 13)%N) by done.
      destruct (splitlines_from (c =? 13)%N s) as [|l ls]; [done|].
      rewrite py_join_nil_cons_eq. by destruct w.
    + rewrite py_join_cons_hd. cbn [word_starts].
      destruct (is_space c); by rewrite IH.
Qed.

Lemma word_starts_join_strip ls :
  word_starts false (py_join [newline] (map py_strip ls))
  = word_starts false (py_join [newline] ls).
Proof.
  destruct ls as [|l ls]; [done|]. cbn [map].
  rewrite !word_starts_join, word_starts_strip. f_equal.
  induction ls as [|l' ls IH]; [done|]. cbn [map sum_list_with].
  by rewrite word_starts_strip, IH.
Qed.

Lemma count_words_strip_lines_eq s :
  count_words (strip_lines s) = count_words s.
Proof.
  rewrite !count_words_starts. unfold strip_lines, py_splitlines.
  rewrite word_starts_join_strip. by apply word_starts_splitlines.
Qed.

(** X10.  Trimming the lines never changes the word count. *)
Theorem strip_lines_keeps_count s :
  count_words (strip_lines s) = count_words s.
Proof. apply count_words_strip_lines_eq. Qed.

(** X11.  A text without percent sign, backslash, dollar sign or brace
    passes the cleaner with its lines trimmed and nothing else changed,
    and keeps its word count. *)
Theorem plain_text_only_trimmed t :
  Forall (λ c, is_markup c = false) t → ch "\" ∉ t → ch "$" ∉ t →
  clean_latex t = strip_lines t
  ∧ count_words (clean_latex t) = count_words t.
Proof.
  intros Hm Hb Hd.
  assert (clean_latex t = strip_lines t) as E.
  { unfold clean_latex. rewrite strip_markup_id; [done..|].
    by apply lone_dollars_no_dollar. }
  split; [done|]. rewrite E. apply count_words_strip_lines_eq.
Qed.

Lemma plain_text_only_trimmed_witness :
  let t := str "  Just plain text  " ++ [newline] ++ str " with, five words.  " in
  Forall (λ c, is_markup c = false) t ∧ ch "\" ∉ t ∧ ch "$" ∉ t
  ∧ clean_latex t = strip_lines t
  ∧ count_words (clean_latex t) = count_words t.
Proof.
  intros t.
  assert (Forall (λ c, is_markup c = false) t) as H1 by (repeat constructor).
  assert (ch "\" ∉ t) as H2 by (cbv; not_in_list).
  assert (ch "$" ∉ t) as H3 by (cbv; not_in_list).
  split_and!; [done|done|done|..];
    apply (plain_text_only_trimmed t H1 H2 H3).
Defined.

Lemma count_words_zero_blank s :
  count_words s = 0 ↔ Forall (λ c, is_space c = true) s.
Proof.
  rewrite count_words_starts.
  induction s as [|c s IH]; simpl; [done|].
  destruct (is_space c) eqn:Hc.
  - rewrite IH. split; [by constructor|by intros [_ ?]%Forall_cons].
  - split; [lia|]. intros [? _]%Forall_cons. congruence.
Qed.

(** X12.  The word count is zero exactly for a text made of whitespace
    only. *)
Theorem count_words_zero_iff s :
  count_words s = 0 ↔ Forall (λ c, is_space c = true) s.
Proof. apply count_words_zero_blank. Qed.

(** X13.  Words do not reach across whitespace: the count of two texts
    put together with a whitespace character between them is the sum of
    their counts, and without it at most the sum. *)
Theorem count_words_app a c b :
  is_space c = true →
  count_words (a ++ c :: b) = count_words a + count_words b
  ∧ count_words (a ++ b) ≤ count_words a + count_words b.
Proof.
  intros Hc. rewrite !count_words_starts. split.
  - by apply word_starts_app_space.
  - rewrite <- (word_starts_app_space false a c b Hc).
    apply word_starts_sublist, sublist_app; [done|by apply sublist_cons].
Qed.

Lemma count_words_app_witness :
  is_space (ch " ") = true
  ∧ count_words (str "Hello world." ++ ch " " :: str "Some text")
    = count_words (str "Hello world.") + count_words (str "Some text")
  ∧ count_words (str "Hello world." ++ str "Some text")
    ≤ count_words (str "Hello world.") + count_words (str "Some text").
Proof.
  split; [reflexivity|].
  exact (count_words_app (str "Hello world.") (ch " ") (str "Some text")
           eq_refl).
Defined.

(** ** The sectional counter, further *)

#[local] Opaque clean_latex count_words.

(** Where the pattern matches nowhere, [re.split] returns the text as
    its only piece. *)
Lemma re_split_no_match r g s : re_search r s = None → re_split r g s = [s].
Proof.
  unfold re_split. induction s as [|c s IH]; simpl; [done|].
  destruct (re_match r (c :: s)); [done|]. intros H. by rewrite IH.
Qed.

(** X14.  A text in LaTeX mode in which the section pattern matches
    nowhere gives a result without sections: all its text counts as
    preamble, and the preamble node is left out when that count is
    zero. *)
Theorem latex_without_section_header content :
  is_latex content = true → re_search section_pattern content = None →
  let n := count_words (clean_latex content) in
  parse_and_count content
  = Some (Tree {| total_words := n;
                  preamble := if 0 <? n then Some n else None;
                  sections := [] |}).
Proof.
  intros Hl Hno n. subst n. unfold parse_and_count, parse_latex. rewrite Hl.
  rewrite re_split_no_match
    by (by apply (re_search_erase section_pattern)).
  cbn [lookup list_lookup mbind option_bind length].
  change (py_range 1 1 2) with (@nil nat). cbn [for_each fmap option_fmap
    option_map].
  generalize (count_words (clean_latex content)). intros k.
  destruct (Nat.ltb_spec 0 k); [done|]. by replace k with 0 by lia.
Qed.

Lemma latex_without_section_header_witness :
  let content := str "\documentclass{article} Some text here" in
  is_latex content = true ∧ re_search section_pattern content = None
  ∧ parse_and_count content
    = Some (Tree {| total_words := 3; preamble := Some 3; sections := [] |}).
Proof.
  intros content.
  assert (is_latex content = true) as H1 by (vm_compute; reflexivity).
  assert (re_search section_pattern content = None) as H2
    by (vm_compute; reflexivity).
  split_and!; [done|done|].
  rewrite (latex_without_section_header content H1 H2).
  vm_compute. reflexivity.
Defined.

Lemma subsection_step_positive subs a b j :
  Forall (λ sub, 0 < sub_word_count sub) (subsections a) →
  subsection_step subs a j = Some b →
  Forall (λ sub, 0 < sub_word_count sub) (subsections b).
Proof.
  unfold subsection_step. intros Ha H.
  destruct (subs !! j) as [x|]; [|done]. cbn [mbind option_bind] in H.
  destruct (re_search subsection_pattern x) as [[rest m]|];
    [|by simplify_eq].
  destruct (subs !! (j + 1)) as [y|]; [|done]. cbn [mbind option_bind] in H.
  destruct (0 <? count_words (clean_latex y)) eqn:Hpos; simplify_eq;
    [|done].
  cbn [subsections]. apply Forall_app. split; [done|].
  apply Forall_singleton. cbn [sub_word_count]. by apply Nat.ltb_lt.
Qed.

Lemma section_step_positive secs a b i :
  preamble a ≠ Some 0
  ∧ Forall (λ sd, Forall (λ sub, 0 < sub_word_count sub) (subsections sd))
      (sections a) →
  section_step secs a i = Some b →
  preamble b ≠ Some 0
  ∧ Forall (λ sd, Forall (λ sub, 0 < sub_word_count sub) (subsections sd))
      (sections b).
Proof.
  unfold section_step. intros [Hp Hs] H.
  destruct (secs !! i) as [x|]; [|done]. cbn [mbind option_bind] in H.
  destruct (re_search section_pattern x) as [[rest m]|];
    [|by simplify_eq].
  destruct (secs !! (i + 1)) as [y|]; [|done]. cbn [mbind option_bind] in H.
  destruct (re_split (paren subsection_pattern) 2 y !! 0) as [z|];
    [|done]. cbn [mbind option_bind] in H.
  destruct (for_each _ _ _) as [sd|] eqn:Hsd; [|done].
  cbn [mbind option_bind] in H. simplify_eq. cbn [preamble sections].
  split; [done|]. apply Forall_app. split; [done|]. apply Forall_singleton.
  eapply (for_each_invariant
            (λ sd, Forall (λ sub, 0 < sub_word_count sub) (subsections sd)));
    [| |exact Hsd].
  - intros ???. apply subsection_step_positive.
  - done.
Qed.

(** X15.  In every result the preamble node, when present, has at least
    one word, and so has every subsection listed under a section. *)
Theorem kept_nodes_are_nonempty content :
  is_latex content = true →
  ∃ res, parse_and_count content = Some (Tree res)
         ∧ preamble res ≠ Some 0
         ∧ Forall (λ sd, Forall (λ sub, 0 < sub_word_count sub)
                           (subsections sd)) (sections res).
Proof.
  intros Hl. unfold parse_and_count. rewrite Hl.
  destruct (parse_latex_is_Some content) as [res Hres].
  exists res. rewrite Hres. split; [done|].
  unfold parse_latex in Hres.
  destruct (re_split (paren section_pattern) 2 content !! 0) as [z|];
    [|done]. cbn [mbind option_bind] in Hres.
  eapply (for_each_invariant
            (λ r, preamble r ≠ Some 0
                  ∧ Forall (λ sd, Forall (λ sub, 0 < sub_word_count sub)
                                    (subsections sd)) (sections r)));
    [| |exact Hres].
  - intros ???. apply section_step_positive.
  - destruct (0 <? count_words (clean_latex z)) eqn:Hpos;
      cbn [preamble sections]; split; try done.
    intros [= E]. rewrite E in Hpos. done.
Qed.

Lemma kept_nodes_are_nonempty_witness :
  let content := str "% only a comment
\section{A} x" in
  is_latex content = true
  ∧ ∃ res, parse_and_count content = Some (Tree res)
           ∧ preamble res ≠ Some 0
           ∧ Forall (λ sd, Forall (λ sub, 0 < sub_word_count sub)
                             (subsections sd)) (sections res).
Proof.
  intros content. split; [vm_compute; reflexivity|].
  apply (kept_nodes_are_nonempty content). vm_compute. reflexivity.
Defined.

#[local] Transparent clean_latex count_words.

(** ** The entry point *)

Lemma py_lstrip_blank s :
  Forall (λ c, is_space c = true) s → py_lstrip s = [].
Proof. induction 1 as [|c s Hc _ IH]; simpl; [done|]. by rewrite Hc. Qed.

Lemma count_words_strip s : count_words (py_strip s) = count_words s.
Proof. rewrite !count_words_starts. apply word_starts_strip. Qed.

Lemma py_strip_nil_iff s :
  py_strip s = [] ↔ Forall (λ c, is_space c = true) s.
Proof.
  split.
  - intros E. apply count_words_zero_blank.
    by rewrite <- count_words_strip, E.
  - intros H. unfold py_strip. by rewrite py_lstrip_blank.
Qed.


(** X17.  When [main] prints a plain-text count, the count is at least
    one. *)
Theorem main_plain_count_positive content n :
  main_on content = Counted (Some (PlainText n)) → 0 < n.
Proof.
  unfold main_on. destruct (py_strip content) as [|c l] eqn:E; [done|].
  intros [= H]. unfold parse_and_count in H.
  destruct (is_latex content).
  - by destruct (parse_latex content).
  - simplify_eq. destruct (count_words content) eqn:Hn; [|lia].
    apply count_words_zero_blank, py_strip_nil_iff in Hn. congruence.
Qed.

Lemma main_plain_count_positive_witness :
  main_on (str "  Just plain text with five words ")
  = Counted (Some (PlainText 6)) ∧ 0 < 6.
Proof.
  assert (main_on (str "  Just plain text with five words ")
          = Counted (Some (PlainText 6))) as H by (vm_compute; reflexivity).
  split; [done|]. exact (main_plain_count_positive _ _ H).
Defined.

(** ** Headers *)

Lemma span_title_spec s t r :
  span_title s = Some (t, r) ↔ s = t ++ ch "}" :: r ∧ ch "}" ∉ t.
Proof.
  revert t. induction s as [|c s IH]; intros t; cbn [span_title].
  - split; [done|]. intros [E _]. by destruct t.
  - destruct (N.eqb_spec c (ch "}")) as [->|Hc].
    + split.
      * intros [= <- <-]. split; [done|apply not_elem_of_nil].
      * intros [E Ht]. destruct t as [|x t]; [by simplify_eq/=|].
        simplify_eq/=. exfalso. apply Ht. by left.
    + destruct (span_title s) as [[t' r']|] eqn:E.
      * split.
        -- intros [= <- <-].
           destruct (proj1 (IH t') eq_refl) as [-> Ht']. split; [done|].
           apply not_elem_of_cons. done.
        -- intros [E' Ht]. destruct t as [|x t]; [by simplify_eq/=|].
           simplify_eq/=. apply not_elem_of_cons in Ht as [_ Ht].
           assert (Some (t', r') = Some (t, r)) as [= -> ->]; [|done].
           by apply IH.
      * split; [done|]. intros [E' Ht].
        destruct t as [|x t]; [by simplify_eq/=|]. simplify_eq/=.
        apply not_elem_of_cons in Ht as [_ Ht].
        assert (@None (pystr * pystr) = Some (t, r)); [|done].
        by apply IH.
Qed.

(** A greedy run of non-brace characters followed by a closing brace
    ends at the first closing brace. *)
Lemma star_greedy_title {A} (F : pystr → option A) s :
  (∀ t, (∀ t', t ≠ ch "}" :: t') → F t = None) →
  star_greedy not_rbrace F s
  = match span_title s with
    | Some (_, r) => F (ch "}" :: r)
    | None => None
    end.
Proof.
  intros HF. induction s as [|c s IH]; cbn [star_greedy span_title].
  - by apply HF.
  - unfold not_rbrace at 1. destruct (N.eqb_spec c (ch "}")) as [->|Hc].
    + done.
    + cbn [negb]. rewrite IH.
      destruct (span_title s) as [[t r]|].
      * by destruct (F (ch "}" :: r)); [|apply HF; congruence].
      * apply HF. congruence.
Qed.

Lemma option_match_id {A} (o : option A) :
  match o with Some x => Some x | None => None end = o.
Proof. by destruct o. Qed.

Lemma match_re_cat r1 r2 s cs k :
  match_re (Cat r1 r2) s cs k
  = match_re r1 s cs (λ s' cs', match_re r2 s' cs' k).
Proof. done. Qed.

(** The optional star, before a pattern that must start with a brace. *)
Lemma match_re_opt_star s cs (K : pystr → caps → option (pystr * caps)) :
  (∀ x t c', K (x :: t) c' ≠ None → x = ch "{") →
  match_re (Opt (Lit (ch "*"))) s cs K
  = K match s with
      | c :: s' => if (c =? ch "*")%N then s' else s
      | [] => []
      end cs.
Proof.
  intros HK. cbn [match_re]. destruct s as [|c s']; [done|].
  destruct (N.eqb_spec c (ch "*")) as [->|Hc]; [|done].
  destruct (K s' cs) eqn:E; [done|].
  destruct (K (ch "*" :: s') cs) eqn:E'; [|done].
  assert (ch "*" = ch "{") by (eapply HK; by rewrite E'). done.
Qed.

Lemma match_re_header_tail g s2 cs k :
  match_re (Cat (Lit (ch "{"))
              (Cat (Grp g (Plus not_rbrace)) (Cat (Lit (ch "}")) Eps)))
    s2 cs k
  = match match s2 with
          | c :: s3 =>
              if (c =? ch "{")%N then
                match span_title s3 with
                | Some ((_ :: _) as t, r) => Some (t, r)
                | _ => None
                end
              else None
          | [] => None
          end
    with
    | Some (t, r) => k r ((g, t) :: cs)
    | None => None
    end.
Proof.
  cbn [match_re]. destruct s2 as [|c s3]; [done|].
  destruct (c =? ch "{")%N; [|done].
  destruct s3 as [|x s4]; [done|]. cbn [span_title].
  unfold not_rbrace at 1. destruct (N.eqb_spec x (ch "}")) as [->|Hx];
    [done|]. cbn [negb].
  rewrite star_greedy_title.
  2:{ intros t Ht. destruct t as [|y t]; [done|].
      destruct (N.eqb_spec y (ch "}")) as [->|]; [|done].
      by destruct (Ht t). }
  destruct (span_title s4) as [[t r]|] eqn:E; [|done].
  rewrite N.eqb_refl. apply span_title_spec in E as [-> _].
  do 3 f_equal. cbn [length]. rewrite length_app. cbn [length].
  replace (S (length t + S (length r)) - S (length r)) with (S (length t))
    by lia.
  cbn [take]. f_equal. by rewrite take_app_length.
Qed.

(** The header pattern, run with any continuation, reads the header as
    [parse_header] does and hands over the title as its group. *)
Lemma match_re_header_body g nm s cs k :
  match_re (header_body g nm) s cs k
  = match parse_header nm s with
    | Some (t, r) => k r ((g, t) :: cs)
    | None => None
    end.
Proof.
  unfold header_body, seq_re, parse_header. cbn [foldr]. cbv zeta.
  rewrite match_re_cat, match_re_lits.
  destruct (is_prefix nm s); [|done].
  rewrite match_re_cat, match_re_opt_star.
  2:{ intros x t c' H. cbn [match_re] in H.
      by destruct (N.eqb_spec x (ch "{")). }
  apply match_re_header_tail.
Qed.

Lemma header_re_body name : header_re name = header_body 1 (str name).
Proof. done. Qed.

Lemma shift_lits l : shift (lits l) = lits l.
Proof.
  induction l as [|c l IH]; [done|].
  change (shift (lits (c :: l))) with (Cat (Lit c) (shift (lits l))).
  by rewrite IH.
Qed.

Lemma paren_header_re name :
  paren (header_re name) = Grp 1 (header_body 2 (str name)).
Proof.
  unfold paren, header_re, header_body, seq_re. cbn [foldr shift].
  by rewrite shift_lits.
Qed.

Lemma re_match_header_re name s :
  re_match (header_re name) s
  = match parse_header (str name) s with
    | Some (t, r) => Some (r, [(1, t)])
    | None => None
    end.
Proof.
  unfold re_match. rewrite header_re_body. apply match_re_header_body.
Qed.

(** What [parse_header] accepts. *)
Lemma parse_header_spec nm s t r :
  parse_header nm s = Some (t, r)
  ↔ ∃ star, (star = [] ∨ star = [ch "*"]) ∧ t ≠ [] ∧ ch "}" ∉ t
            ∧ s = nm ++ star ++ ch "{" :: t ++ ch "}" :: r.
Proof.
  unfold parse_header. split.
  - destruct (is_prefix nm s) eqn:Hp; [|done].
    apply is_prefix_spec in Hp as [s1 ->]. rewrite drop_app_length.
    intros H.
    assert (∃ star s2, (star = [] ∨ star = [ch "*"]) ∧ s1 = star ++ s2
              ∧ match s2 with
                | c :: s3 =>
                    if (c =? ch "{")%N then
                      match span_title s3 with
                      | Some ((_ :: _) as t, r) => Some (t, r)
                      | _ => None
                      end
                    else None
                | [] => None
                end = Some (t, r)) as (star & s2 & Hstar & -> & H2).
    { destruct s1 as [|c s1']; [done|].
      destruct (N.eqb_spec c (ch "*")) as [->|].
      - exists [ch "*"], s1'. auto.
      - exists [], (c :: s1'). auto. }
    destruct s2 as [|c s3]; [done|].
    destruct (N.eqb_spec c (ch "{")) as [->|]; [|done].
    destruct (span_title s3) as [[[|x t'] r']|] eqn:E; [done| |done].
    simplify_eq. apply span_title_spec in E as [-> Ht].
    exists star. split_and!; [done|done|done|done].
  - intros (star & Hstar & Ht & Hb & ->).
    rewrite is_prefix_app, drop_app_length.
    assert (span_title (t ++ ch "}" :: r) = Some (t, r)) as Hsp
      by (by apply span_title_spec).
    destruct t as [|x t]; [done|].
    destruct Hstar as [->| ->]; cbn [app].
    + change ((ch "{" =? ch "*")%N) with false. cbn iota.
      rewrite N.eqb_refl. cbn [app] in Hsp. by rewrite Hsp.
    + rewrite !N.eqb_refl. cbn [app] in Hsp. by rewrite Hsp.
Qed.

(** X18.  The section and subsection patterns match at the start of a
    text exactly when a header stands there: the command, an optional
    star, an opening brace and a non-empty title ending at the first
    closing brace; group 1 is that title, and the match ends right
    after that brace. *)
Theorem header_match_reads_title name s r cs :
  re_match (header_re name) s = Some (r, cs)
  ↔ ∃ star t, (star = [] ∨ star = [ch "*"]) ∧ t ≠ [] ∧ ch "}" ∉ t
              ∧ s = str name ++ star ++ ch "{" :: t ++ ch "}" :: r
              ∧ cs = [(1, t)].
Proof.
  rewrite re_match_header_re. split.
  - destruct (parse_header (str name) s) as [[t r']|] eqn:E; [|done].
    intros [= -> <-].
    apply parse_header_spec in E as (star & ? & ? & ? & ?).
    by exists star, t.
  - intros (star & t & H1 & H2 & H3 & H4 & ->).
    assert (parse_header (str name) s = Some (t, r)) as ->; [|done].
    apply parse_header_spec. eauto.
Qed.

(** ** The pieces of a split *)

Lemma re_match_suffix r s rest cs :
  consumes r = true → re_match r s = Some (rest, cs) →
  ∃ m, s = m ++ rest ∧ m ≠ [] ∧ length s - length rest = length m.
Proof.
  intros Hr H. pose proof (re_match_shorter _ _ _ _ Hr H) as Hlen.
  apply match_re_inv in H as (s' & cs' & [m ->] & _ & [= <- <-]).
  exists m. rewrite length_app in *. split_and!; [done| |lia].
  intros ->. simpl in Hlen. lia.
Qed.

Lemma splits_cons_hd r g c s pieces :
  re_match r (c :: s) = None →
  splits r g s pieces → splits r g (c :: s) (cons_hd c pieces).
Proof.
  intros Hc Hs. destruct Hs as [b Hb|b m rest cs pieces Hb Hm Hne Hs].
  - apply splits_last. intros t [[|x k] E]; simplify_eq/=; [done|].
    apply Hb. by exists k.
  - apply (splits_cons r g (c :: b) m rest cs pieces); [|done..].
    intros t [[|x k] E] Ht; simplify_eq/=; [done|].
    apply Hb; [by exists k|done].
Qed.

(** The model of [re.split] meets its description. *)
Lemma split_from_splits r g s skip :
  consumes r = true → skip ≤ length s →
  splits r g (drop skip s) (split_from r g skip s).
Proof.
  intros Hr. revert skip. induction s as [|c s IH]; intros skip Hskip.
  - rewrite drop_nil. apply splits_last. intros t [k E].
    destruct k, t; simplify_eq/=. by apply re_match_nil.
  - destruct skip as [|n]; cbn [split_from drop].
    + destruct (re_match r (c :: s)) as [[rest cs]|] eqn:E.
      * destruct (re_match_suffix _ _ _ _ Hr E) as (m & Hm & Hne & Hlen).
        rewrite Hlen. destruct m as [|x m]; [done|].
        cbn [length]. injection Hm as <- Hs. subst s.
        specialize (IH (length m)). rewrite drop_app_length in IH.
        apply (splits_cons r g [] (c :: m) rest cs _); [|done|done|].
        -- intros t [k Hk] Ht. by destruct k, t.
        -- apply IH. rewrite length_app. lia.
      * apply splits_cons_hd; [done|]. apply (IH 0). lia.
    + apply IH. simpl in Hskip. lia.
Qed.

Lemma re_split_splits r g s :
  consumes r = true → splits r g s (re_split r g s).
Proof. intros Hr. apply (split_from_splits r g s 0 Hr). lia. Qed.

Lemma re_search_is_Some r s :
  is_Some (re_search r s) →
  ∃ t, t `suffix_of` s ∧ is_Some (re_match r t).
Proof.
  induction s as [|c s IH]; cbn [re_search].
  - destruct (re_match r []) eqn:E; [|by intros [? ?]].
    exists []. by rewrite E.
  - destruct (re_match r (c :: s)) eqn:E.
    + exists (c :: s). by rewrite E.
    + intros (t & Ht & Hm)%IH. exists t. split; [by apply suffix_cons_r|done].
Qed.

Lemma re_search_None r s :
  (∀ t, t `suffix_of` s → re_match r t = None) → re_search r s = None.
Proof.
  intros H. destruct (re_search r s) eqn:E; [|done].
  destruct (re_search_is_Some r s) as (t & Ht & [m Hm]); [by rewrite E|].
  by rewrite (H t Ht) in Hm.
Qed.

(** ** Headers in a split text *)

Lemma re_match_header1 nm u :
  re_match (header_body 1 nm) u
  = match parse_header nm u with
    | Some (t, r) => Some (r, [(1, t)])
    | None => None
    end.
Proof. apply match_re_header_body. Qed.

Lemma re_match_header_paren nm u :
  re_match (Grp 1 (header_body 2 nm)) u
  = match parse_header nm u with
    | Some (t, r) => Some (r, [(1, take (length u - length r) u); (2, t)])
    | None => None
    end.
Proof.
  unfold re_match. cbn [match_re]. by rewrite match_re_header_body.
Qed.

Lemma parse_header_ext nm u e t r :
  parse_header nm u = Some (t, r) → parse_header nm (u ++ e) = Some (t, r ++ e).
Proof.
  intros (star & Hs & Ht & Hb & ->)%parse_header_spec.
  apply parse_header_spec. exists star. split_and!; [done..|].
  rewrite <- !app_assoc. cbn [app]. by rewrite <- !app_assoc.
Qed.

Lemma parse_header_brace nm u t r :
  parse_header nm u = Some (t, r) → ch "}" ∈ u.
Proof.
  intros (star & _ & _ & _ & ->)%parse_header_spec.
  rewrite !elem_of_app. right. right. right. rewrite elem_of_app.
  right. by left.
Qed.

(** A text without closing brace holds no header. *)
Lemma header_search_no_brace nm x :
  ch "}" ∉ x → re_search (header_body 1 nm) x = None.
Proof.
  intros Hx. apply re_search_None. intros t [k ->].
  rewrite re_match_header1.
  destruct (parse_header nm t) as [[ti r]|] eqn:E; [|done].
  exfalso. apply Hx. rewrite elem_of_app. right.
  by eapply parse_header_brace.
Qed.

(** The pieces of a text split on headers: at a piece that holds a
    header match, the match is at its start, its title is the next
    piece, and the title holds no closing brace. *)
Lemma splits_header_lookup nm s pieces i x y :
  splits (Grp 1 (header_body 2 nm)) 2 s pieces →
  pieces !! i = Some x → is_Some (re_search (header_body 1 nm) x) →
  pieces !! (i + 1) = Some y →
  re_search (header_body 1 nm) x = Some ([], [(1, y)]) ∧ ch "}" ∉ y.
Proof.
  intros Hs. revert i.
  induction Hs as [b Hb|b m rest cs pieces Hb Hm Hne Hs IH];
    intros i Hx Hsome Hy.
  - by destruct i; simplify_eq/=.
  - rewrite re_match_header_paren in Hm.
    destruct (parse_header nm (m ++ rest)) as [[t r]|] eqn:Hp; [|done].
    replace (length (m ++ rest) - length r) with (length m) in Hm
      by (injection Hm as -> _; rewrite length_app; lia).
    rewrite take_app_length in Hm. injection Hm as -> <-.
    change (map _ (seq 1 2)) with [m; t] in Hx, Hy.
    pose proof Hp as (star & Hstar & Ht & Hbr & E)%parse_header_spec.
    assert (m = nm ++ star ++ ch "{" :: t ++ [ch "}"]) as Em.
    { apply (app_inv_tail rest). rewrite E, <- !app_assoc. cbn [app].
      by rewrite <- !app_assoc. }
    assert (parse_header nm m = Some (t, [])) as Hpm.
    { apply parse_header_spec. exists star. by rewrite Em. }
    clear E Em.
    destruct i as [|[|[|i]]]; cbn [lookup list_lookup Nat.add] in Hx, Hy.
    + injection Hx as <-. exfalso.
      destruct (re_search_is_Some _ _ Hsome) as (u & Hu & [[r c] Hmu]).
      rewrite re_match_header1 in Hmu.
      destruct (parse_header nm u) as [[ti ri]|] eqn:Hpu; [|done].
      assert (u ≠ []) as Hne'.
      { intros ->. by apply parse_header_brace, elem_of_nil in Hpu. }
      specialize (Hb u Hu Hne'). rewrite re_match_header_paren in Hb.
      rewrite (parse_header_ext _ _ _ _ _ Hpu) in Hb. discriminate Hb.
    + injection Hx as <-. injection Hy as <-.
      split; [|done]. destruct m as [|c0 m0]; [done|].
      cbn [re_search]. by rewrite re_match_header1, Hpm.
    + injection Hx as <-. exfalso.
      rewrite header_search_no_brace in Hsome by done.
      by destruct Hsome.
    + apply (IH i); [exact Hx|done|exact Hy].
Qed.

Lemma splits_header_rejoin nm s pieces :
  splits (Grp 1 (header_body 2 nm)) 2 s pieces →
  rejoin pieces = s ∧ ∃ k, length pieces = 3 * k + 1.
Proof.
  induction 1 as [b Hb|b m rest cs pieces Hb Hm Hne Hs [IH [k Hk]]].
  - split; [done|]. by exists 0.
  - rewrite re_match_header_paren in Hm.
    destruct (parse_header nm (m ++ rest)) as [[t r]|] eqn:Hp; [|done].
    replace (length (m ++ rest) - length r) with (length m) in Hm
      by (injection Hm as -> _; rewrite length_app; lia).
    rewrite take_app_length in Hm. injection Hm as -> <-.
    change (map _ (seq 1 2)) with [m; t]. cbn [app rejoin].
    rewrite IH. split; [done|]. exists (S k). cbn [length]. lia.
Qed.

Lemma header_paren_search_no_brace nm x :
  ch "}" ∉ x → re_search (Grp 1 (header_body 2 nm)) x = None.
Proof.
  intros Hx. apply re_search_None. intros t [k ->].
  rewrite re_match_header_paren.
  destruct (parse_header nm t) as [[ti r]|] eqn:E; [|done].
  exfalso. apply Hx. rewrite elem_of_app. right.
  by eapply parse_header_brace.
Qed.

(** X19.  Splitting on the parenthesised header pattern loses no text:
    the pieces come three per header (text before, header, title) plus
    the text after the last header, and the texts and headers put back
    together are the input. *)
Theorem header_split_keeps_text name content :
  let pieces := re_split (paren (header_re name)) 2 content in
  rejoin pieces = content ∧ ∃ k, length pieces = 3 * k + 1.
Proof.
  intros pieces. apply (splits_header_rejoin (str name)).
  unfold pieces. rewrite <- paren_header_re.
  apply re_split_splits, header_consumes.
Qed.

#[local] Opaque clean_latex count_words.

Lemma section_step_titles content a b i :
  let secs := re_split (paren section_pattern) 2 content in
  Forall (λ sd, subsections sd = []
                ∧ word_count sd = count_words (clean_latex (title sd))
                ∧ ch "}" ∉ title sd) (sections a) →
  section_step secs a i = Some b →
  Forall (λ sd, subsections sd = []
                ∧ word_count sd = count_words (clean_latex (title sd))
                ∧ ch "}" ∉ title sd) (sections b).
Proof.
  intros secs Ha H. unfold section_step in H.
  destruct (secs !! i) as [x|] eqn:Hx; [|done].
  cbn [mbind option_bind] in H.
  destruct (re_search section_pattern x) as [[rest m]|] eqn:Hm;
    [|by simplify_eq].
  destruct (secs !! (i + 1)) as [y|] eqn:Hy; [|done].
  cbn [mbind option_bind] in H.
  destruct (splits_header_lookup (str "\section") content secs i x y)
    as [Hsr Hbr]; [| done | | done |].
  { unfold secs, section_pattern. rewrite <- paren_header_re.
    apply re_split_splits, header_consumes. }
  { change (header_body 1 (str "\section")) with section_pattern.
    by rewrite Hm. }
  change (header_body 1 (str "\section")) with section_pattern in Hsr.
  rewrite Hm in Hsr. injection Hsr as -> ->.
  change (group 1 [(1, y)]) with y in H.
  rewrite (re_split_no_match (paren subsection_pattern) 2 y) in H.
  2:{ unfold subsection_pattern. rewrite paren_header_re.
      by apply header_paren_search_no_brace. }
  change (py_range 1 (length [y]) 2) with (@nil nat) in H.
  cbn [lookup list_lookup mbind option_bind for_each] in H.
  injection H as <-. cbn [sections].
  apply Forall_app. split; [done|]. apply Forall_singleton.
  by cbn [subsections word_count title Nat.add].
Qed.

(** X20.  No section node ever lists a subsection, and the count of a
    section node is the word count of its cleaned title, not of the text
    under the header: the text read as the section's content is the
    piece after the header, and that piece is the title, which holds no
    closing brace and so no subsection header. *)
Theorem section_nodes_count_their_title content :
  is_latex content = true →
  ∃ res, parse_and_count content = Some (Tree res)
         ∧ Forall (λ sd, subsections sd = []
                         ∧ word_count sd
                           = count_words (clean_latex (title sd))
                         ∧ ch "}" ∉ title sd) (sections res).
Proof.
  intros Hl. unfold parse_and_count. rewrite Hl.
  destruct (parse_latex_is_Some content) as [res Hres].
  rewrite Hres. exists res. split; [done|].
  unfold parse_latex in Hres.
  destruct (re_split (paren section_pattern) 2 content !! 0) as [z|];
    [|done].
  cbn [mbind option_bind] in Hres.
  eapply (for_each_invariant
            (λ r, Forall (λ sd, subsections sd = []
                                ∧ word_count sd
                                  = count_words (clean_latex (title sd))
                                ∧ ch "}" ∉ title sd) (sections r)));
    [| |exact Hres].
  - intros ???. apply section_step_titles.
  - by destruct (0 <? count_words (clean_latex z)).
Qed.

#[local] Transparent clean_latex count_words.

Lemma section_nodes_count_their_title_witness :
  ∃ res,
    parse_and_count (str "\section{Two words} one two three") = Some (Tree res)
    ∧ Forall (λ sd, subsections sd = []
                    ∧ word_count sd = count_words (clean_latex (title sd))
                    ∧ ch "}" ∉ title sd) (sections res).
Proof.
  apply (section_nodes_count_their_title
           (str "\section{Two words} one two three")).
  vm_compute. reflexivity.
Defined.
